(** * blocking.js: a shallow embedding of assets/js/blocking.js

    The script is a flat list of demonstration routines, called once
    each when the page is ready.  The first part of this file embeds
    the routines, in the order of the script; the second part states and
    proves their properties, in the same order.

    Conventions of the embedding.
    - A JavaScript number that the script only uses as an integer (loop
      counters, [id], the arguments of [isPrime] and [fibonacci], the
      millisecond clock) is a [Z]; [%] on such numbers is the truncated
      remainder [Z.rem].
    - A JavaScript number that is a genuine double ([Math.random()], the
      [value] and [doubled] fields) is a primitive binary64 [float].
    - A [for] loop whose bounds are constants and whose body neither
      breaks nor writes its counter is a counted iteration ([for_range],
      and [for_each] when the body has effects on the page).
    - A loop or a recursion whose exit depends on data carries a fuel
      argument and returns [None] when the fuel runs out; each such
      function comes with a lemma giving a fuel that is enough.
    - A routine that acts on the page is an [action] on a [World]: it
      returns, or raises an exception, and leaves a new state of the
      page either way.
    - [console.log] is not modelled; where a routine only reports
      numbers, the embedding returns them. *)

From Stdlib Require Import ZArith List Bool Lia Znumtheory.
From Stdlib Require Import String Ascii DecimalString.
From Stdlib Require Import Floats.
From Stdlib Require Uint63.
Import ListNotations.

Local Open Scope Z_scope.

(** ** Counted loops *)

(** [for (let i = lo; ...; i++) body], run for [trips] iterations. *)
Fixpoint for_upto {St : Type} (trips : nat) (i : Z)
         (body : Z -> St -> St) (s : St) : St :=
  match trips with
  | O => s
  | S k => for_upto k (i + 1) body (body i s)
  end.

(** [for (let i = lo; i < hi; i++) body]. *)
Definition for_range {St : Type} (lo hi : Z) (body : Z -> St -> St) (s : St) : St :=
  for_upto (Z.to_nat (hi - lo)) lo body s.

(** The integers [lo, lo + 1, ..., lo + len - 1]. *)
Fixpoint Zseq (lo : Z) (len : nat) : list Z :=
  match len with
  | O => []
  | S k => lo :: Zseq (lo + 1) k
  end.

(** The decimal digits of a counter, as a template literal [`${i}`]
    prints them. *)
Definition decimal (n : Z) : string :=
  NilEmpty.string_of_uint (Nat.to_uint (Z.to_nat n)).

(** [Array.prototype.push]: the element goes to the end. *)
Definition push {A : Type} (l : list A) (x : A) : list A := l ++ [x].

(** Sequencing of computations that may run out of fuel. *)
Definition obind {A B : Type} (c : option A) (k : A -> option B) : option B :=
  match c with
  | Some a => k a
  | None => None
  end.

(** ** Busy-wait (lines 4-9) *)

(** [Date.now()] is the sequence [now] of its successive readings, in
    milliseconds: [now 0] is the reading taken on entry into [start],
    [now 1] the one of the first test of the loop, and so on.

    [sleep_loop] is the loop [while (Date.now() - start < ms) {}] about
    to take reading [k]; [sleep] returns the index of the reading that
    ended the loop. *)
Fixpoint sleep_loop (fuel : nat) (now : nat -> Z) (start ms : Z) (k : nat) : option nat :=
  match fuel with
  | O => None
  | S fuel' =>
      if now k - start <? ms then sleep_loop fuel' now start ms (S k)
      else Some k
  end.

Definition sleep (fuel : nat) (now : nat -> Z) (ms : Z) : option nat :=
  let start := now 0%nat in
  sleep_loop fuel now start ms 1.

(** The clock never runs backwards. *)
Definition non_decreasing (now : nat -> Z) : Prop :=
  forall i j : nat, (i <= j)%nat -> now i <= now j.

(** ** The host page *)

(** How a call ends: it returns a value, or an exception propagates out
    of it; either way the state reached so far stays. *)
Inductive completion (St A : Type) : Type :=
| Returned (a : A) (s : St)
| Raised (e : string) (s : St).

Arguments Returned {St A} a s.
Arguments Raised {St A} e s.

Definition action (St A : Type) : Type := St -> completion St A.

Definition ret {St A : Type} (a : A) : action St A := fun s => Returned a s.

Definition bind {St A B : Type} (m : action St A) (k : A -> action St B) : action St B :=
  fun s =>
    match m s with
    | Returned a s' => k a s'
    | Raised e s' => Raised e s'
    end.

Definition throw {St A : Type} (e : string) : action St A := fun s => Raised e s.

(** [try { m } catch (e) { handler(e) }]. *)
Definition try_catch {St A : Type} (m : action St A) (handler : string -> action St A) : action St A :=
  fun s =>
    match m s with
    | Returned a s' => Returned a s'
    | Raised e s' => handler e s'
    end.

Declare Scope action_scope.
Delimit Scope action_scope with action.
Notation "x <- m ;; k" := (bind m (fun x => k))
  (at level 61, m at next level, right associativity) : action_scope.
Notation "m ;; k" := (bind m (fun _ => k))
  (at level 61, right associativity) : action_scope.

(** The state an action ends in. *)
Definition final_state {St A : Type} (c : completion St A) : St :=
  match c with
  | Returned _ s => s
  | Raised _ s => s
  end.

(** [for (let i = lo; ...; i++) { body }] with effects: an exception in
    the body ends the loop. *)
Fixpoint for_each {St : Type} (trips : nat) (i : Z) (body : Z -> action St unit) : action St unit :=
  match trips with
  | O => ret tt
  | S k => bind (body i) (fun _ => for_each k (i + 1) body)
  end.

(** Inline style of an element.  Lengths are kept as numbers of pixels
    and the colour as its hue: the script writes them as CSS text
    ([i + 'px'], [`hsl(${i * 3.6}, 100%, 50%)`]). *)
Record Style : Type := mkStyle {
  width : option Z;
  height : option Z;
  backgroundColor : option float;
  position : string;
  top : option float;
  left : option float
}.

Definition no_style : Style := mkStyle None None None "" None None.

(** An element; [node] is its identity. *)
Record Element : Type := mkElement {
  node : nat;
  tagName : string;
  innerHTML : string;
  style : Style
}.

(** What a mutation observer on [document.body] would record. *)
Inductive Mutation : Type :=
| Attached (n : nat)
| Removed (n : nat).

(** The callbacks the script hands to [setInterval]. *)
Inductive Callback : Type :=
| animation_tick
| leak_tick_callback.

(** The closure of line 82: it holds the list returned by
    [document.querySelectorAll('*')]. *)
Record Closure : Type := mkClosure {
  elements : list nat
}.

(** The page as the script sees it.
    - [document_body]: the children of [document.body], in order, or
      [None] when the document has no body ([document.body] is [null]);
    - [next_node]: the identity the next created element gets;
    - [mutations], [reflows]: attachments and removals under the body,
      and forced layouts, so far;
    - [document_listeners]: event type and identity of the function,
      for each listener registered on [document];
    - [next_function]: the identity the next function object gets;
    - [window_memoryLeaks]: [window.memoryLeaks], [None] for [undefined];
    - [intervals]: the timers registered by [setInterval], with their
      periods in milliseconds;
    - [random], [draws]: the doubles [Math.random()] returns, and how
      many have been taken;
    - [network]: what a synchronous GET of a URL ends in, the status of
      the response, or [None] when the request fails. *)
Record World : Type := mkWorld {
  document_body : option (list Element);
  next_node : nat;
  mutations : list Mutation;
  reflows : nat;
  document_listeners : list (string * nat);
  next_function : nat;
  window_memoryLeaks : option (list Closure);
  intervals : list (Callback * Z);
  random : nat -> float;
  draws : nat;
  network : string -> option Z
}.

Definition with_body (w : World) (b : option (list Element)) (m : list Mutation) : World :=
  mkWorld b (next_node w) m (reflows w) (document_listeners w)
          (next_function w) (window_memoryLeaks w) (intervals w) (random w) (draws w) (network w).

Definition with_next_node (w : World) (n : nat) : World :=
  mkWorld (document_body w) n (mutations w) (reflows w) (document_listeners w)
          (next_function w) (window_memoryLeaks w) (intervals w) (random w) (draws w) (network w).

Definition with_reflows (w : World) (n : nat) : World :=
  mkWorld (document_body w) (next_node w) (mutations w) n (document_listeners w)
          (next_function w) (window_memoryLeaks w) (intervals w) (random w) (draws w) (network w).

Definition with_listeners (w : World) (l : list (string * nat)) (f : nat) : World :=
  mkWorld (document_body w) (next_node w) (mutations w) (reflows w) l
          f (window_memoryLeaks w) (intervals w) (random w) (draws w) (network w).

Definition with_memoryLeaks (w : World) (l : option (list Closure)) : World :=
  mkWorld (document_body w) (next_node w) (mutations w) (reflows w) (document_listeners w)
          (next_function w) l (intervals w) (random w) (draws w) (network w).

Definition with_intervals (w : World) (l : list (Callback * Z)) : World :=
  mkWorld (document_body w) (next_node w) (mutations w) (reflows w) (document_listeners w)
          (next_function w) (window_memoryLeaks w) l (random w) (draws w) (network w).

Definition with_draws (w : World) (n : nat) : World :=
  mkWorld (document_body w) (next_node w) (mutations w) (reflows w) (document_listeners w)
          (next_function w) (window_memoryLeaks w) (intervals w) (random w) n (network w).

(** [Math.random()]. *)
Definition Math_random : action World float :=
  fun w => Returned (random w (draws w)) (with_draws w (S (draws w))).

(** [document.createElement(tag)]: a new element, attached nowhere. *)
Definition createElement (tag : string) : action World Element :=
  fun w => Returned (mkElement (next_node w) tag "" no_style)
                    (with_next_node w (S (next_node w))).

(** The children of the body other than the node [n]. *)
Definition without_node (n : nat) (children : list Element) : list Element :=
  filter (fun c => negb (Nat.eqb (node c) n)) children.

Definition is_child (n : nat) (children : list Element) : bool :=
  existsb (fun c => Nat.eqb (node c) n) children.

(** [document.body.appendChild(el)]: [el] becomes the last child, and
    is moved there if it was a child already.  Without a body the
    property access fails. *)
Definition appendChild (el : Element) : action World unit :=
  fun w =>
    match document_body w with
    | None => throw "TypeError" w
    | Some children =>
        Returned tt (with_body w (Some (without_node (node el) children ++ [el]))
                               (mutations w ++ [Attached (node el)]))
    end.

(** [document.body.removeChild(el)]: fails when [el] is not a child. *)
Definition removeChild (el : Element) : action World unit :=
  fun w =>
    match document_body w with
    | None => throw "TypeError" w
    | Some children =>
        if is_child (node el) children then
          Returned tt (with_body w (Some (without_node (node el) children))
                                 (mutations w ++ [Removed (node el)]))
        else throw "NotFoundError" w
    end.

(** Reading [el.offsetHeight] forces a layout; the value is not used. *)
Definition offsetHeight (el : Element) : action World unit :=
  fun w => Returned tt (with_reflows w (S (reflows w))).

(** ** DOM churn (lines 23-46) *)

Definition lit_3_6 : float := 0x1.ccccccccccccdp+1%float.
Definition lit_100 : float := 100%float.

(** The double of a loop counter. *)
Definition to_double (i : Z) : float := PrimFloat.of_uint63 (Uint63.of_Z i).

(** One turn of the loop, lines 28-43. *)
Definition churn_once (i : Z) : action World unit :=
  (div <- createElement "div" ;;
   r_top <- Math_random ;;
   r_left <- Math_random ;;
   let div :=
     mkElement (node div) (tagName div)
               ("<p>Dynamic content " ++ decimal i ++ "</p>")
               (mkStyle (Some i) (Some i)
                        (Some (to_double i * lit_3_6)%float)
                        "absolute"
                        (Some (r_top * lit_100)%float)
                        (Some (r_left * lit_100)%float)) in
   appendChild div ;;
   offsetHeight div ;;
   removeChild div)%action.

Definition inefficientDOMManipulation : action World unit :=
  for_each 100 0 churn_once.

(** The identities of the elements created by a run that starts in [w]. *)
Definition churned (w : World) : list nat := seq (next_node w) 100.

(** What the mutation record gains with one turn of the loop on node [n]. *)
Definition attach_remove (n : nat) : list Mutation := [Attached n; Removed n].

(** Every child of the body was created before the next element will be. *)
Definition body_well_formed (w : World) : Prop :=
  match document_body w with
  | Some children => Forall (fun c => (node c < next_node w)%nat) children
  | None => False
  end.

(** A page with two elements under its body. *)
Definition two_children : World :=
  mkWorld (Some [mkElement 0 "h1" "Title" no_style; mkElement 1 "p" "Text" no_style])
          2 [] 0 [] 0 None [] (fun _ => 0.5%float) 0 (fun _ => Some 200).

(** ** Animation and leaks (lines 49-90) *)

(** [badAnimation] only registers its callback, every 16 ms.  The body
    of that callback writes styles computed with [Math.sin] and
    [Math.cos] and is not embedded. *)
Definition badAnimation : action World unit :=
  fun w => Returned tt (with_intervals w (intervals w ++ [(animation_tick, 16)])).

(** [document.querySelectorAll('*')], on the part of the page that is
    modelled: the children of the body.  The list the browser returns
    also holds the elements that are not modelled ([html], [head], the
    body itself and what lies below its children); the properties of
    [window.memoryLeaks] count the closures and do not depend on what
    they hold. *)
Definition querySelectorAll_all (w : World) : list nat :=
  match document_body w with
  | Some children => map node children
  | None => []
  end.

(** The callback of line 70, run once.  [handler] is a new function
    object each time, so none of the three registrations is a
    duplicate of an earlier one. *)
Definition leak_tick (w : World) : World :=
  let handler := next_function w in
  let w :=
    with_listeners w
      (document_listeners w ++ [("click"%string, handler); ("scroll"%string, handler);
                                ("resize"%string, handler)])
      (S handler) in
  let closure := mkClosure (querySelectorAll_all w) in
  (* window.memoryLeaks = window.memoryLeaks || []; *)
  let w :=
    with_memoryLeaks w
      (match window_memoryLeaks w with
       | Some leaks => Some leaks
       | None => Some []
       end) in
  (* window.memoryLeaks.push(closure); *)
  with_memoryLeaks w
    (match window_memoryLeaks w with
     | Some leaks => Some (push leaks closure)
     | None => None
     end).

Definition setupMemoryLeaks : action World unit :=
  fun w => Returned tt (with_intervals w (intervals w ++ [(leak_tick_callback, 1000)])).

(** The world after the leak timer has fired [n] times. *)
Fixpoint after_ticks (n : nat) (w : World) : World :=
  match n with
  | O => w
  | S k => leak_tick (after_ticks k w)
  end.

(** [window.memoryLeaks.length], 0 while the array does not exist. *)
Definition memoryLeaks_length (w : World) : nat :=
  match window_memoryLeaks w with
  | Some leaks => List.length leaks
  | None => 0
  end.

(** ** Regular expressions and synchronous requests (lines 93-138) *)

Definition badRegex : string := "^(a+)+$".
Definition testString : string := "aaaaaaaaaaaaaaaaaaaax".
Definition emailRegex : string :=
  "^[a-zA-Z0-9.!#$%&'*+\/=?^_`{|}~-]+@[a-zA-Z0-9](?:[a-zA-Z0-9-]{0,61}[a-zA-Z0-9])?(?:\.[a-zA-Z0-9](?:[a-zA-Z0-9-]{0,61}[a-zA-Z0-9])?)*$".

(** [regex.test(text)] as a statement: the script drops the result, and
    the matching itself is not embedded. *)
Definition RegExp_test (regex text : string) : action World unit := ret tt.

Definition inefficientRegex : action World unit :=
  (try_catch
     (for_each 100 0 (fun _ => RegExp_test badRegex testString))
     (fun _ => ret tt) ;;
   for_each 1000 0 (fun _ => RegExp_test emailRegex "test@example.com"))%action.

(** [new XMLHttpRequest()], [open('GET', url, false)], [send()]: the
    status of the response, or an exception when the request fails. *)
Definition XMLHttpRequest_get (url : string) : action World Z :=
  fun w =>
    match network w url with
    | Some status => Returned status w
    | None => throw "NetworkError" w
    end.

Definition synchronousRequests : action World unit :=
  (try_catch
     (status <- XMLHttpRequest_get "https://jsonplaceholder.typicode.com/posts/1" ;;
      ret tt)
     (fun _ => ret tt) ;;
   try_catch
     (status <- XMLHttpRequest_get "https://jsonplaceholder.typicode.com/posts/2" ;;
      ret tt)
     (fun _ => ret tt))%action.

(** ** Data processing (lines 141-174) *)

(** The double a decimal literal of the script denotes. *)
Definition lit_0_1 : float := 0x1.999999999999ap-4%float.
Definition lit_0_25 : float := 0.25%float.
Definition lit_0_5 : float := 0.5%float.
Definition lit_2 : float := 2%float.

(** The same constants in the specification of binary64: sign, mantissa
    and exponent. *)
Definition SF_two : spec_float := S754_finite false 4503599627370496 (-51).
Definition SF_half : spec_float := S754_finite false 4503599627370496 (-53).
Definition SF_quarter : spec_float := S754_finite false 4503599627370496 (-54).
Definition SF_tenth : spec_float := S754_finite false 7205759403792794 (-56).

(** [x > y] on doubles: false as soon as one side is NaN. *)
Definition gt (x y : float) : bool := PrimFloat.ltb y x.

(** An element of [largeArray], and what the two spreading passes make of
    it: [processed] and [doubled] are absent ([None]) until a pass adds
    them, and a spread [{...item, field: v}] sets the field whether or
    not it was there. *)
Record Item : Type := mkItem {
  id : Z;
  name : string;
  value : float;
  data : list float;
  processed : option bool;
  doubled : option float
}.

Definition set_processed (item : Item) (b : bool) : Item :=
  mkItem (id item) (name item) (value item) (data item) (Some b) (doubled item).

Definition set_doubled (item : Item) (d : float) : Item :=
  mkItem (id item) (name item) (value item) (data item) (processed item) (Some d).

(** [item.doubled > 0.5]; an absent property reads [undefined], which
    compares false. *)
Definition doubled_gt (item : Item) (y : float) : bool :=
  match doubled item with
  | Some d => gt d y
  | None => false
  end.

(** [String.prototype.toUpperCase] on the ASCII letters; the names the
    script builds, [`Item ${i}`], have no other letters. *)
Definition toUpperCase_ascii (c : ascii) : ascii :=
  let n := nat_of_ascii c in
  if ((97 <=? n) && (n <=? 122))%nat then ascii_of_nat (n - 32) else c.

Fixpoint toUpperCase (s : string) : string :=
  match s with
  | EmptyString => EmptyString
  | String c rest => String (toUpperCase_ascii c) (toUpperCase rest)
  end.

(** The six passes of lines 153-159, each building a new array. *)
Definition pass1 (l : list Item) : list Item :=
  filter (fun item => gt (value item) lit_0_1) l.
Definition pass2 (l : list Item) : list Item :=
  map (fun item => set_processed item true) l.
Definition pass3 (l : list Item) : list Item :=
  filter (fun item => Z.rem (id item) 2 =? 0) l.
Definition pass4 (l : list Item) : list Item :=
  map (fun item => set_doubled item (value item * lit_2)%float) l.
Definition pass5 (l : list Item) : list Item :=
  filter (fun item => doubled_gt item lit_0_5) l.
Definition pass6 (l : list Item) : list string :=
  map (fun item => toUpperCase (name item)) l.

Definition process (largeArray : list Item) : list string :=
  pass6 (pass5 (pass4 (pass3 (pass2 (pass1 largeArray))))).

(** The chain with its first pass left out. *)
Definition process_without_pass1 (largeArray : list Item) : list string :=
  pass6 (pass5 (pass4 (pass3 (pass2 largeArray)))).

(** One traversal doing the work of the six: a record is kept when
    [value > 0.1], [id] is even and [2 * value > 0.5], and what is kept
    of it is its name in upper case. *)
Definition kept (item : Item) : bool :=
  gt (value item) lit_0_1 && Z.even (id item) && gt (lit_2 * value item)%float lit_0_5.

Fixpoint single_pass (l : list Item) : list string :=
  match l with
  | [] => []
  | item :: rest =>
      if kept item then toUpperCase (name item) :: single_pass rest
      else single_pass rest
  end.

(** [Math.random()] is the stream [rand] of the doubles it returns, in
    the order of the calls.  Element [i] of [largeArray] takes draw
    [101 * i] for [value] and the hundred draws after it for [data]. *)
Definition synthesize (rand : nat -> float) (i : Z) : Item :=
  let first_draw := Z.to_nat (101 * i) in
  mkItem i
         ("Item " ++ decimal i)
         (rand first_draw)
         (map rand (seq (S first_draw) 100))
         None None.

(** [Array.from({length: 10000}, (_, i) => ...)]. *)
Definition largeArray (rand : nat -> float) : list Item :=
  map (synthesize rand) (Zseq 0 (Z.to_nat 10000)).

(** The counting loops of lines 164-172. *)
Definition count_comparisons : Z :=
  for_range 0 1000
    (fun i comparisons =>
       for_range 0 1000
         (fun j comparisons =>
            let comparisons := comparisons + 1 in
            if i =? j then comparisons else comparisons)
         comparisons)
    0.

(** [inefficientDataProcessing] returns nothing; the embedding returns
    the two numbers it reports, [result.length] and [comparisons]. *)
Definition inefficientDataProcessing (rand : nat -> float) : nat * Z :=
  let result := process (largeArray rand) in
  (List.length result, count_comparisons).

(** ** Heavy calculations (lines 177-210) *)

(** The loop of [isPrime]:
    [for (let i = 2; i < n; i++) { if (n % i === 0) return false; } return true;]
    entered with the counter at [i]. *)
Fixpoint isPrime_loop (fuel : nat) (n i : Z) : option bool :=
  match fuel with
  | O => None
  | S fuel' =>
      if i <? n then
        if Z.rem n i =? 0 then Some false
        else isPrime_loop fuel' n (i + 1)
      else Some true
  end.

Definition isPrime_fuel (fuel : nat) (n : Z) : option bool :=
  if n <? 2 then Some false else isPrime_loop fuel n 2.

(** The loop test is evaluated at most [n - 1] times. *)
Definition isPrime (n : Z) : option bool := isPrime_fuel (Z.to_nat n) n.

(** [fibonacci]; [fuel] bounds the depth of the calls. *)
Fixpoint fibonacci_fuel (fuel : nat) (n : Z) : option Z :=
  match fuel with
  | O => None
  | S fuel' =>
      if n <=? 1 then Some n
      else
        match fibonacci_fuel fuel' (n - 1), fibonacci_fuel fuel' (n - 2) with
        | Some a, Some b => Some (a + b)
        | _, _ => None
        end
  end.

(** A call on [n] nests at most [n] calls below it. *)
Definition fibonacci (n : Z) : option Z := fibonacci_fuel (S (Z.to_nat n)) n.

(** The two collecting loops of [heavyCalculations]. *)

Definition collect_primes (lo hi : Z) : option (list Z) :=
  for_range lo hi
    (fun i acc =>
       match acc with
       | None => None
       | Some primes =>
           match isPrime i with
           | None => None
           | Some true => Some (push primes i)
           | Some false => Some primes
           end
       end)
    (Some []).

Definition collect_fibonacci (lo hi : Z) : option (list Z) :=
  for_range lo hi
    (fun i acc =>
       match acc with
       | None => None
       | Some fibResults =>
           match fibonacci i with
           | None => None
           | Some f => Some (push fibResults f)
           end
       end)
    (Some []).

(** [heavyCalculations] returns nothing; the embedding returns the two
    arrays it builds, [primes] and [fibResults]. *)
Definition heavyCalculations : option (list Z * list Z) :=
  obind (collect_primes 2 10000) (fun primes =>
  obind (collect_fibonacci 0 35) (fun fibResults =>
  Some (primes, fibResults))).

(** The Fibonacci numbers as they are usually defined: [F 0 = 0],
    [F 1 = 1], [F (n + 2) = F (n + 1) + F n]. *)
Fixpoint F (n : nat) : Z :=
  match n with
  | O => 0
  | S m =>
      match m with
      | O => 1
      | S k => F m + F k
      end
  end.

(** The test of the collecting loop, [if (isPrime(i))]. *)
Definition found_prime (i : Z) : bool :=
  match isPrime i with
  | Some true => true
  | _ => false
  end.


(** The primes below 100, and the test that divides by those of them
    that are below [n]. *)
Definition small_primes : list Z :=
  [2; 3; 5; 7; 11; 13; 17; 19; 23; 29; 31; 37; 41; 43; 47; 53; 59; 61; 67; 71;
   73; 79; 83; 89; 97].

Definition sieved (n : Z) : bool :=
  forallb (fun p => (n <=? p) || negb (Z.rem n p =? 0)) small_primes.

(** ** Start-up (lines 225-245) *)

Inductive Routine : Type :=
| DOMManipulation
| Animation
| MemoryLeaks
| Regex
| Requests
| DataProcessing
| Calculations.

(** The order in which lines 238-244 (and 228-234) name the routines. *)
Definition fixed_order : list Routine :=
  [DOMManipulation; Animation; MemoryLeaks; Regex; Requests; DataProcessing;
   Calculations].

Definition returned {St A : Type} (c : completion St A) : Prop :=
  exists a s, c = Returned a s.

Definition raised {St A : Type} (c : completion St A) (e : string) : Prop :=
  exists s, c = Raised e s.

Section Orchestrator.

(** The dispatch is read for any behaviour of the seven routines:
    [body_of r] is what a call of [r] does to the page. *)
Context {St : Type}.
Variable body_of : Routine -> action St unit.

(** A call of a routine; the second component of the state lists the
    routines called so far. *)
Definition call (r : Routine) : action (St * list Routine) unit :=
  fun st =>
    match body_of r (fst st) with
    | Returned _ s' => Returned tt (s', snd st ++ [r])
    | Raised e s' => Raised e (s', snd st ++ [r])
    end.

(** The seven statements of lines 238-244; nothing catches. *)
Definition start_all : action (St * list Routine) unit :=
  (call DOMManipulation ;;
   call Animation ;;
   call MemoryLeaks ;;
   call Regex ;;
   call Requests ;;
   call DataProcessing ;;
   call Calculations)%action.

(** What the dispatch does: while the document is loading the calls
    are left to a [DOMContentLoaded] listener, otherwise they are made
    at once. *)
Inductive startup : Type :=
| Deferred (listener : action (St * list Routine) unit)
| Started (c : completion (St * list Routine) unit).

Definition dispatch (readyState : string) (s : St) : startup :=
  if String.eqb readyState "loading" then Deferred start_all
  else Started (start_all (s, [])).

(** The routines called in the course of a run. *)
Definition invoked (c : completion (St * list Routine) unit) : list Routine :=
  snd (final_state c).

(** Calls in the order of a list, up to the first exception. *)
Fixpoint call_in_order (rs : list Routine) : action (St * list Routine) unit :=
  match rs with
  | [] => ret tt
  | r :: rest => bind (call r) (fun _ => call_in_order rest)
  end.

(** [returns_in_turn rs s s']: run one after the other from the state
    [s], each on the state the one before left, the routines of [rs]
    all return, and the last leaves [s']. *)
Inductive returns_in_turn : list Routine -> St -> St -> Prop :=
| returns_none (s : St) : returns_in_turn [] s s
| returns_next (r : Routine) (rest : list Routine) (s s1 s2 : St) :
    body_of r s = Returned tt s1 ->
    returns_in_turn rest s1 s2 ->
    returns_in_turn (r :: rest) s s2.

End Orchestrator.

(** A computation with fuel, as an action.  With enough fuel it returns
    its result.  Without, it has not finished: the action does not
    return, and the exception of that name stands for it. *)
Definition within_fuel {St A : Type} (c : option A) : action St A :=
  fun s =>
    match c with
    | Some a => Returned a s
    | None => Raised "(did not finish)" s
    end.

(** [Array.from({length: len}, (_, i) => f(i))], from the index [i] on:
    the elements are built in order, each with the effects of [f]. *)
Fixpoint Array_from {A : Type} (len : nat) (i : Z) (f : Z -> action World A)
  : action World (list A) :=
  match len with
  | O => ret []
  | S k =>
      bind (f i) (fun x =>
      bind (Array_from k (i + 1) f) (fun rest =>
      ret (x :: rest)))
  end.

(** The record of lines 145-150 built on the page: [Math.random()] is
    called once for [value], then a hundred times for [data]. *)
Definition synthesize_on_page (i : Z) : action World Item :=
  (value <- Math_random ;;
   data <- Array_from 100 0 (fun _ => Math_random) ;;
   ret (mkItem i ("Item " ++ decimal i) value data None None))%action.

(** [inefficientDataProcessing] on the page; it returns the two numbers
    it reports. *)
Definition inefficientDataProcessing_on_page : action World (nat * Z) :=
  (largeArray <- Array_from (Z.to_nat 10000) 0 synthesize_on_page ;;
   let result := process largeArray in
   ret (List.length result, count_comparisons))%action.

(** The routines of the script as actions on the page. *)
Definition script_body (r : Routine) : action World unit :=
  match r with
  | DOMManipulation => inefficientDOMManipulation
  | Animation => badAnimation
  | MemoryLeaks => setupMemoryLeaks
  | Regex => inefficientRegex
  | Requests => synchronousRequests
  | DataProcessing => (reported <- inefficientDataProcessing_on_page ;; ret tt)%action
  | Calculations => (built <- within_fuel heavyCalculations ;; ret tt)%action
  end.

(** A loaded page whose body has been taken out of the document. *)
Definition no_body : World :=
  mkWorld None 0 [] 0 [] 0 None [] (fun _ => 0.5%float) 0 (fun _ => Some 200).

(** * Further embedding

    The parts of the script that the first part leaves out or keeps
    abstract: the callback of the animation timer, the two regular
    expressions, and the cost of the two brute-force calculations. *)

From Stdlib Require Import Sorted.

(** ** The animation callback (lines 51-63) *)

(** An element as the callback sees it: its classes, and the three
    inline styles the callback writes.  [left] is a whole number of
    pixels; [width] and [height] are doubles. *)
Record Box : Type := mkBox {
  classList : list string;
  style_left : option Z;
  style_width : option float;
  style_height : option float
}.

(** The selector [.moving-box, .rotating-element, .scaling-element]:
    an element is selected when it has one of the three classes. *)
Definition animated_classes : list string :=
  ["moving-box"%string; "rotating-element"%string; "scaling-element"%string].

Definition selected (b : Box) : bool :=
  existsb (fun c => existsb (String.eqb c) (classList b)) animated_classes.

Definition lit_50 : float := 50%float.
Definition lit_20 : float := 20%float.

(** The page for the callback: the global [animationCounter], the
    elements of the document in document order, and the number of
    layouts forced so far by reading [offsetHeight]. *)
Record Stage : Type := mkStage {
  animationCounter : Z;
  boxes : list Box;
  forced_layouts : nat
}.

Section Animation.

(** [Math.sin] and [Math.cos] are the host's; nothing is assumed of
    them. *)
Variables Math_sin Math_cos : float -> float.

(** The body of [forEach] for the element [el] at position [index]
    among the selected ones, lines 56-58. *)
Definition restyle (animationCounter index : Z) (el : Box) : Box :=
  mkBox (classList el)
        (Some (Z.rem (animationCounter + index * 10) 300))
        (Some (lit_50 + Math_sin (to_double animationCounter * lit_0_1) * lit_20)%float)
        (Some (lit_50 + Math_cos (to_double animationCounter * lit_0_1) * lit_20)%float).

(** [querySelectorAll(...).forEach(...)] as one walk over the document:
    a selected element is restyled with the next index, the others are
    passed over. *)
Fixpoint animate (animationCounter index : Z) (page : list Box) : list Box :=
  match page with
  | [] => []
  | el :: rest =>
      if selected el then
        restyle animationCounter index el :: animate animationCounter (index + 1) rest
      else el :: animate animationCounter index rest
  end.

(** The callback of line 51, run once. *)
Definition animation_callback (st : Stage) : Stage :=
  let animationCounter := animationCounter st + 1 in
  mkStage animationCounter
          (animate animationCounter 0 (boxes st))
          (forced_layouts st + List.length (filter selected (boxes st))).

Fixpoint after_frames (n : nat) (st : Stage) : Stage :=
  match n with
  | O => st
  | S k => animation_callback (after_frames k st)
  end.

End Animation.

(** A page with three elements, the first and the last of them
    selected, with the counter at 7. *)
Definition small_stage : Stage :=
  mkStage 7
          [mkBox ["moving-box"%string] None None None;
           mkBox ["title"%string] (Some 12) None None;
           mkBox ["card"%string; "scaling-element"%string] None None None]
          0.

(** ** Leaks, continued *)

(** The three registrations of one tick, lines 76-78, for the function
    object [handler]. *)
Definition registrations (handler : nat) : list (string * nat) :=
  [("click"%string, handler); ("scroll"%string, handler); ("resize"%string, handler)].

(** The closures held by [window.memoryLeaks], none while it is
    undefined. *)
Definition memoryLeaks_list (w : World) : list Closure :=
  match window_memoryLeaks w with
  | Some leaks => leaks
  | None => []
  end.

(** ** The two regular expressions (lines 99 and 111) *)

(** *** The patterns as they are written *)

(** An item of a character class [[...]]. *)
Inductive item : Type :=
| Range (lo hi : ascii)     (* lo-hi *)
| Single (c : ascii)        (* c *)
| EscapedItem (c : ascii).  (* \c *)

(** What stands between [^] and [$] in the two literals. *)
Inductive pattern : Type :=
| PChar (c : ascii)                  (* c *)
| PEscaped (c : ascii)               (* \c *)
| PClass (items : list item)         (* [...] *)
| PGroup (p : pattern)               (* (p) *)
| PNonCapturing (p : pattern)        (* (?:p) *)
| PSeq (p q : pattern)               (* pq *)
| PPlus (p : pattern)                (* p+ *)
| PStar (p : pattern)                (* p* *)
| POpt (p : pattern)                 (* p? *)
| PRepeat (p : pattern) (lo hi : nat).  (* p{lo,hi} *)

Definition print_item (i : item) : string :=
  match i with
  | Range lo hi => String lo (String "-" (String hi EmptyString))
  | Single c => String c EmptyString
  | EscapedItem c => String "\" (String c EmptyString)
  end.

Fixpoint print (p : pattern) : string :=
  match p with
  | PChar c => String c EmptyString
  | PEscaped c => String "\" (String c EmptyString)
  | PClass items => "[" ++ String.concat "" (map print_item items) ++ "]"
  | PGroup p => "(" ++ print p ++ ")"
  | PNonCapturing p => "(?:" ++ print p ++ ")"
  | PSeq p q => print p ++ print q
  | PPlus p => print p ++ "+"
  | PStar p => print p ++ "*"
  | POpt p => print p ++ "?"
  | PRepeat p lo hi =>
      print p ++ "{" ++ decimal (Z.of_nat lo) ++ "," ++ decimal (Z.of_nat hi) ++ "}"
  end.

(** The literal [/^p$/]. *)
Definition print_anchored (p : pattern) : string := "^" ++ print p ++ "$".

(** [/^(a+)+$/] *)
Definition badRegex_pattern : pattern :=
  PPlus (PGroup (PPlus (PChar "a"))).

Definition alphanumeric : list item :=
  [Range "a" "z"; Range "A" "Z"; Range "0" "9"].

(** [[a-zA-Z0-9.!#$%&'*+\/=?^_`{|}~-]] *)
Definition local_items : list item :=
  alphanumeric ++
  [Single "."; Single "!"; Single "#"; Single "$"; Single "%"; Single "&";
   Single "'"; Single "*"; Single "+"; EscapedItem "/"; Single "=";
   Single "?"; Single "^"; Single "_"; Single "`"; Single "{"; Single "|";
   Single "}"; Single "~"; Single "-"].

Definition local_class : pattern := PClass local_items.

(** [[a-zA-Z0-9-]] *)
Definition alphanumeric_hyphen : list item := alphanumeric ++ [Single "-"].

(** [[a-zA-Z0-9](?:[a-zA-Z0-9-]{0,61}[a-zA-Z0-9])?] *)
Definition label_pattern : pattern :=
  PSeq (PClass alphanumeric)
       (POpt (PNonCapturing
                (PSeq (PRepeat (PClass alphanumeric_hyphen) 0 61)
                      (PClass alphanumeric)))).

Definition emailRegex_pattern : pattern :=
  PSeq (PPlus local_class)
       (PSeq (PChar "@")
             (PSeq label_pattern
                   (PStar (PNonCapturing (PSeq (PEscaped ".") label_pattern))))).

(** *** What a pattern matches *)

(** Regular expressions over characters; [Never] matches nothing and
    only arises while matching. *)
Inductive regex : Type :=
| Never
| Empty
| Class (items : list item)
| Seq (r s : regex)
| Alt (r s : regex)
| Star (r : regex).

Definition in_item (c : ascii) (i : item) : bool :=
  match i with
  | Range lo hi => (N_of_ascii lo <=? N_of_ascii c)%N && (N_of_ascii c <=? N_of_ascii hi)%N
  | Single x => Ascii.eqb c x
  | EscapedItem x => Ascii.eqb c x
  end.

Definition in_class (c : ascii) (items : list item) : bool :=
  existsb (in_item c) items.

(** [r{0,n}]: at most [n] times [r]. *)
Fixpoint Upto (n : nat) (r : regex) : regex :=
  match n with
  | O => Empty
  | S k => Alt (Seq r (Upto k r)) Empty
  end.

(** [r{n,n}]: [n] times [r]. *)
Fixpoint Times (n : nat) (r : regex) : regex :=
  match n with
  | O => Empty
  | S k => Seq r (Times k r)
  end.

Fixpoint desugar (p : pattern) : regex :=
  match p with
  | PChar c => Class [Single c]
  | PEscaped c => Class [Single c]
  | PClass items => Class items
  | PGroup p => desugar p
  | PNonCapturing p => desugar p
  | PSeq p q => Seq (desugar p) (desugar q)
  | PPlus p => Seq (desugar p) (Star (desugar p))
  | PStar p => Star (desugar p)
  | POpt p => Alt (desugar p) Empty
  | PRepeat p lo hi => Seq (Times lo (desugar p)) (Upto (hi - lo) (desugar p))
  end.

(** The strings of a regular expression. *)
Inductive matches : regex -> list ascii -> Prop :=
| matches_empty : matches Empty []
| matches_class (items : list item) (c : ascii) :
    in_class c items = true -> matches (Class items) [c]
| matches_seq (r s : regex) (u v : list ascii) :
    matches r u -> matches s v -> matches (Seq r s) (u ++ v)
| matches_alt_l (r s : regex) (u : list ascii) :
    matches r u -> matches (Alt r s) u
| matches_alt_r (r s : regex) (u : list ascii) :
    matches s u -> matches (Alt r s) u
| matches_star_nil (r : regex) : matches (Star r) []
| matches_star_more (r : regex) (u v : list ascii) :
    matches r u -> matches (Star r) v -> matches (Star r) (u ++ v).

(** *** Matching, by derivatives *)

Fixpoint nullable (r : regex) : bool :=
  match r with
  | Never => false
  | Empty => true
  | Class _ => false
  | Seq r s => nullable r && nullable s
  | Alt r s => nullable r || nullable s
  | Star _ => true
  end.

(** Sequence and choice, without the branches that match nothing. *)
Definition seq_ (r s : regex) : regex :=
  match r with
  | Never => Never
  | _ => Seq r s
  end.

Definition alt_ (r s : regex) : regex :=
  match r, s with
  | Never, _ => s
  | _, Never => r
  | _, _ => Alt r s
  end.

(** What is left of [r] after the character [c]. *)
Fixpoint deriv (c : ascii) (r : regex) : regex :=
  match r with
  | Never => Never
  | Empty => Never
  | Class items => if in_class c items then Empty else Never
  | Seq r s =>
      if nullable r then alt_ (seq_ (deriv c r) s) (deriv c s)
      else seq_ (deriv c r) s
  | Alt r s => alt_ (deriv c r) (deriv c s)
  | Star r => seq_ (deriv c r) (Star r)
  end.

Fixpoint accepts (r : regex) (s : list ascii) : bool :=
  match s with
  | [] => nullable r
  | c :: rest => accepts (deriv c r) rest
  end.

(** [/^p$/.test(text)]: without the [m] flag the anchors stand for the
    two ends of [text], so the whole of it has to match. *)
Definition test (p : pattern) (text : string) : bool :=
  accepts (desugar p) (list_ascii_of_string text).

(** *** The strings the two patterns stand for *)

(** A local part: one character or more, all of the first class. *)
Definition is_local (u : list ascii) : bool :=
  match u with
  | [] => false
  | _ => forallb (fun c => in_class c local_items) u
  end.

(** A domain label: 1 to 63 letters, digits and hyphens, the first and
    the last of them not a hyphen. *)
Definition is_label (u : list ascii) : bool :=
  match u with
  | [] => false
  | c :: rest =>
      in_class c alphanumeric &&
      in_class (last rest c) alphanumeric &&
      forallb (fun x => in_class x alphanumeric_hyphen) rest &&
      (List.length u <=? 63)%nat
  end.

(** [local@label.label...label], with one label or more. *)
Definition email_shape (l : list ascii) : Prop :=
  exists (local first : list ascii) (others : list (list ascii)),
    l = local ++ "@"%char :: first ++ flat_map (cons "."%char) others /\
    is_local local = true /\
    is_label first = true /\
    Forall (fun u => is_label u = true) others.

(** ** The cost of the heavy calculations *)

(** [isPrime_loop], counting in [tests] the remainders [n % i] computed. *)
Fixpoint isPrime_loop_cost (fuel : nat) (n i tests : Z) : option (bool * Z) :=
  match fuel with
  | O => None
  | S fuel' =>
      if i <? n then
        if Z.rem n i =? 0 then Some (false, tests + 1)
        else isPrime_loop_cost fuel' n (i + 1) (tests + 1)
      else Some (true, tests)
  end.

Definition isPrime_cost (n : Z) : option (bool * Z) :=
  if n <? 2 then Some (false, 0) else isPrime_loop_cost (Z.to_nat n) n 2 0.


(** * Properties *)

(** ** Busy-wait *)

Lemma sleep_loop_exit (fuel : nat) (now : nat -> Z) (start ms : Z) (k r : nat) :
  sleep_loop fuel now start ms k = Some r ->
  (k <= r)%nat /\ ms <= now r - start.
Proof.
  revert k. induction fuel as [|fuel IH]; intros k; cbn [sleep_loop]; [discriminate|].
  destruct (Z.ltb_spec (now k - start) ms) as [Hlt|Hge].
  - intros H. apply IH in H. destruct H as [Hk Hr]. split; [lia|exact Hr].
  - intros [= <-]. split; [lia|exact Hge].
Qed.

(** The loop ends at the first reading that is late enough, provided the
    fuel reaches it. *)
Lemma sleep_loop_returns (now : nat -> Z) (start ms : Z) (gap k : nat) :
  ms <= now (k + gap)%nat - start ->
  exists r, sleep_loop (S gap) now start ms k = Some r /\ (k <= r <= k + gap)%nat.
Proof.
  revert k. induction gap as [|gap IH]; intros k Hlate; cbn [sleep_loop].
  - rewrite Nat.add_0_r in Hlate.
    destruct (Z.ltb_spec (now k - start) ms); [lia|].
    exists k. split; [reflexivity|lia].
  - destruct (Z.ltb_spec (now k - start) ms).
    + destruct (IH (S k)) as (r & Hr & Hb).
      * replace (S k + gap)%nat with (k + S gap)%nat by lia. exact Hlate.
      * exists r. split; [exact Hr|lia].
    + exists k. split; [reflexivity|lia].
Qed.

(** C5. With a clock that never runs backwards: when [sleep(D)] returns,
    the clock reads at least [D] more than it did on entry, at the
    return and ever after.  (And [sleep(D)] does return once a reading
    is [D] past the first.) *)
Theorem sleep_elapsed (now : nat -> Z) (D : Z) :
  non_decreasing now ->
  (forall fuel r,
      sleep fuel now D = Some r ->
      forall j, (r <= j)%nat -> D <= now j - now 0%nat) /\
  (forall k,
      (1 <= k)%nat -> D <= now k - now 0%nat ->
      exists r, sleep k now D = Some r /\ (1 <= r <= k)%nat).
Proof.
  intros Hmono. split.
  - intros fuel r Hr j Hj. unfold sleep in Hr.
    apply sleep_loop_exit in Hr. destruct Hr as [_ Hr].
    specialize (Hmono r j Hj). lia.
  - intros k Hk Hlate. unfold sleep.
    destruct k as [|gap]; [lia|].
    destruct (sleep_loop_returns now (now 0%nat) D gap 1) as (r & Hr & Hb).
    + replace (1 + gap)%nat with (S gap) by lia. exact Hlate.
    + exists r. split; [exact Hr|lia].
Qed.

(** A clock that starts at 1000 and gains 3 ms per reading; [sleep(10)]
    returns at the fourth reading after the first, 12 ms later. *)
Lemma sleep_elapsed_witness :
  sleep 10 (fun k => 1000 + 3 * Z.of_nat k) 10 = Some 4%nat /\
  10 <= (1000 + 3 * Z.of_nat 4) - (1000 + 3 * Z.of_nat 0).
Proof.
  split; [reflexivity|].
  refine (proj1 (sleep_elapsed (fun k => 1000 + 3 * Z.of_nat k) 10 _) 10%nat 4%nat _ 4%nat _).
  - intros i j Hij. lia.
  - reflexivity.
  - lia.
Defined.
(** ** DOM churn *)

(** Reads of the fields of a page that has just been written. *)
Ltac world_simpl :=
  cbn [with_next_node with_draws with_body with_reflows with_listeners
       with_memoryLeaks with_intervals document_body next_node mutations reflows
       document_listeners next_function window_memoryLeaks intervals random draws
       network node].

Lemma without_node_fresh (n : nat) (children : list Element) :
  Forall (fun c => (node c < n)%nat) children ->
  without_node n children = children.
Proof.
  unfold without_node. induction 1 as [|c rest Hc _ IH]; cbn [filter].
  - reflexivity.
  - destruct (Nat.eqb_spec (node c) n) as [Heq|_]; [lia|].
    cbn [negb]. rewrite IH. reflexivity.
Qed.

Lemma is_child_fresh (n : nat) (children : list Element) :
  Forall (fun c => (node c < n)%nat) children ->
  is_child n children = false.
Proof.
  unfold is_child. induction 1 as [|c rest Hc _ IH]; cbn [existsb].
  - reflexivity.
  - destruct (Nat.eqb_spec (node c) n) as [Heq|_]; [lia|exact IH].
Qed.

Lemma is_child_last (el : Element) (children : list Element) :
  is_child (node el) (children ++ [el]) = true.
Proof.
  unfold is_child. rewrite existsb_app. cbn [existsb].
  rewrite Nat.eqb_refl, orb_true_l, orb_true_r. reflexivity.
Qed.

Lemma without_node_last (el : Element) (children : list Element) :
  Forall (fun c => (node c < node el)%nat) children ->
  without_node (node el) (children ++ [el]) = children.
Proof.
  intros Hfresh. unfold without_node. rewrite filter_app. cbn [filter].
  rewrite Nat.eqb_refl. cbn [negb]. rewrite app_nil_r.
  apply without_node_fresh. exact Hfresh.
Qed.

(** One turn: the element is created, attached last, measured, and
    removed; the children are those of before. *)
Lemma churn_once_spec (i : Z) (w : World) (children : list Element) :
  document_body w = Some children ->
  Forall (fun c => (node c < next_node w)%nat) children ->
  churn_once i w =
  Returned tt
    (mkWorld (Some children) (S (next_node w))
             (mutations w ++ [Attached (next_node w); Removed (next_node w)])
             (S (reflows w)) (document_listeners w) (next_function w)
             (window_memoryLeaks w) (intervals w) (random w) (S (S (draws w)))
             (network w)).
Proof.
  intros Hbody Hfresh.
  unfold churn_once, bind, createElement, Math_random, appendChild, offsetHeight,
    removeChild.
  world_simpl.
  rewrite Hbody.
  world_simpl.
  rewrite (without_node_fresh _ _ Hfresh).
  match goal with |- context [children ++ [?el]] => set (div := el) end.
  replace (is_child (next_node w) (children ++ [div])) with true
    by (symmetry; apply (is_child_last div)).
  replace (without_node (next_node w) (children ++ [div])) with children
    by (symmetry; apply (without_node_last div); exact Hfresh).
  rewrite <- app_assoc. reflexivity.
Qed.

Lemma churn_loop_spec (trips : nat) (i : Z) (w : World) (children : list Element) :
  document_body w = Some children ->
  Forall (fun c => (node c < next_node w)%nat) children ->
  for_each trips i churn_once w =
  Returned tt
    (mkWorld (Some children) (next_node w + trips)
             (mutations w ++ flat_map attach_remove (seq (next_node w) trips))
             (reflows w + trips) (document_listeners w) (next_function w)
             (window_memoryLeaks w) (intervals w) (random w) (draws w + 2 * trips)
             (network w)).
Proof.
  revert i w. induction trips as [|k IH]; intros i w Hbody Hfresh.
  - cbn [for_each seq flat_map]. unfold ret.
    rewrite app_nil_r, !Nat.add_0_r. destruct w; cbn in *. subst. reflexivity.
  - cbn [for_each]. unfold bind at 1.
    rewrite (churn_once_spec i w children Hbody Hfresh).
    rewrite IH; world_simpl.
    + f_equal. f_equal; try lia.
      cbn [seq flat_map attach_remove]. rewrite <- app_assoc. reflexivity.
    + reflexivity.
    + eapply Forall_impl; [|exact Hfresh]. cbn beta. intros c Hc. lia.
Qed.

(** C6. On a page whose body holds only elements created earlier,
    [inefficientDOMManipulation] returns; it has attached to the body
    and then removed 100 elements, all new and distinct; the children
    of the body are those of before the call, and none of the 100 is
    among them. *)
Theorem churn_restores_body (w : World) :
  body_well_formed w ->
  exists w',
    inefficientDOMManipulation w = Returned tt w' /\
    document_body w' = document_body w /\
    List.length (churned w) = 100%nat /\
    NoDup (churned w) /\
    mutations w' = mutations w ++ flat_map attach_remove (churned w) /\
    forall n children,
      In n (churned w) -> document_body w' = Some children ->
      is_child n children = false.
Proof.
  unfold body_well_formed. intros Hwf.
  destruct (document_body w) as [children|] eqn:Hbody; [|contradiction].
  eexists. split; [apply (churn_loop_spec 100 0 w children Hbody Hwf)|].
  cbn [document_body mutations]. unfold churned.
  split; [reflexivity|]. split; [apply length_seq|].
  split; [apply seq_NoDup|]. split; [reflexivity|].
  intros n children' Hn [= <-]. apply in_seq in Hn.
  apply is_child_fresh. eapply Forall_impl; [|exact Hwf].
  cbn beta. intros c Hc. lia.
Qed.

Lemma churn_restores_body_witness :
  exists w',
    inefficientDOMManipulation two_children = Returned tt w' /\
    document_body w' = document_body two_children /\
    List.length (churned two_children) = 100%nat /\
    NoDup (churned two_children) /\
    mutations w' = mutations two_children ++ flat_map attach_remove (churned two_children) /\
    forall n children,
      In n (churned two_children) -> document_body w' = Some children ->
      is_child n children = false.
Proof.
  apply (churn_restores_body two_children).
  unfold body_well_formed, two_children. cbn [document_body next_node].
  repeat constructor.
Defined.
(** ** Leaks *)

Lemma leak_tick_length (w : World) :
  memoryLeaks_length (leak_tick w) = S (memoryLeaks_length w).
Proof.
  unfold memoryLeaks_length, leak_tick.
  world_simpl.
  destruct (window_memoryLeaks w) as [leaks|]; unfold push;
    rewrite length_app; cbn [List.length]; lia.
Qed.

Lemma after_ticks_length (n : nat) (w : World) :
  memoryLeaks_length (after_ticks n w) = (memoryLeaks_length w + n)%nat.
Proof.
  induction n as [|k IH]; cbn [after_ticks].
  - lia.
  - rewrite leak_tick_length, IH. lia.
Qed.

(** The timer of [setupMemoryLeaks] is the one registered last. *)
Example setupMemoryLeaks_registers (w : World) :
  exists w', setupMemoryLeaks w = Returned tt w' /\
             last (intervals w') (animation_tick, 0) = (leak_tick_callback, 1000) /\
             window_memoryLeaks w' = window_memoryLeaks w.
Proof.
  eexists. split; [reflexivity|].
  world_simpl.
  rewrite last_last. split; reflexivity.
Qed.

(** C4. From a page where [window.memoryLeaks] is not yet defined, as
    the script finds it: after [N] ticks of the leak timer the array
    holds exactly [N] closures; and a tick, from whatever state, never
    shortens it. *)
Theorem memoryLeaks_length_ticks (w : World) :
  window_memoryLeaks w = None ->
  (forall N : nat, memoryLeaks_length (after_ticks N w) = N) /\
  (forall w' : World, (memoryLeaks_length w' <= memoryLeaks_length (leak_tick w'))%nat).
Proof.
  intros Hundef. split.
  - intros N. rewrite after_ticks_length. unfold memoryLeaks_length.
    rewrite Hundef. lia.
  - intros w'. rewrite leak_tick_length. lia.
Qed.

Lemma memoryLeaks_length_ticks_witness :
  memoryLeaks_length (after_ticks 5 two_children) = 5%nat.
Proof.
  apply (proj1 (memoryLeaks_length_ticks two_children eq_refl) 5%nat).
Defined.
(** ** Regular expressions and synchronous requests *)

Lemma inefficientRegex_returns (w : World) : inefficientRegex w = Returned tt w.
Proof. reflexivity. Qed.

(** Whatever becomes of the two requests, the routine returns: a
    failure is caught where it happens, and the second request is made
    whether or not the first one failed. *)
Lemma synchronousRequests_returns (w : World) : synchronousRequests w = Returned tt w.
Proof.
  unfold synchronousRequests, bind, try_catch, XMLHttpRequest_get, throw, ret.
  destruct (network w "https://jsonplaceholder.typicode.com/posts/1");
    destruct (network w "https://jsonplaceholder.typicode.com/posts/2");
    reflexivity.
Qed.

(** ** Data processing *)

Example synthesize_7 (rand : nat -> float) :
  id (synthesize rand 7) = 7 /\
  name (synthesize rand 7) = "Item 7"%string /\
  value (synthesize rand 7) = rand 707%nat /\
  List.length (data (synthesize rand 7)) = 100%nat.
Proof. repeat split. Qed.

Example toUpperCase_item : toUpperCase "Item 4096" = "ITEM 4096"%string.
Proof. reflexivity. Qed.

(** Six records through the six passes: kept are the first, and the
    last, whose [value] is [Infinity]; an odd [id], a [doubled] of 0.375
    or of exactly 0.5, and a [NaN] are dropped. *)
Example process_sample :
  process [mkItem 0 "Item 0" 0.375 [] None None;
           mkItem 1 "Item 1" 0.875 [] None None;
           mkItem 2 "Item 2" 0.1875 [] None None;
           mkItem 4 "Item 4" 0.25 [] None None;
           mkItem 6 "Item 6" nan [] None None;
           mkItem (-8) "last" infinity [] None None]
  = ["ITEM 0"; "LAST"]%string.
Proof. reflexivity. Qed.

(** [id % 2 === 0] holds exactly of the even integers, negative ones
    included. *)
Lemma rem_2_even (z : Z) : (Z.rem z 2 =? 0) = Z.even z.
Proof.
  apply eq_true_iff_eq.
  rewrite Z.eqb_eq, Z.even_spec, Z.rem_divide by discriminate.
  split; intros [m Hm]; exists m; lia.
Qed.

(** Multiplication of doubles commutes. *)
Lemma SFmul_comm (x y : spec_float) : SF64mul x y = SF64mul y x.
Proof.
  unfold SF64mul.
  destruct x as [sx|sx| |sx mx ex], y as [sy|sy| |sy my ey]; cbn [SFmul];
    try reflexivity; try (rewrite (xorb_comm sx sy); reflexivity).
  rewrite (xorb_comm sx sy), (Pos.mul_comm mx my), (Z.add_comm ex ey).
  reflexivity.
Qed.

Lemma float_mul_comm (x y : float) : (x * y)%float = (y * x)%float.
Proof. apply Prim2SF_inj. rewrite !mul_spec. apply SFmul_comm. Qed.

Lemma process_cons (item : Item) (rest : list Item) :
  process (item :: rest) =
  if kept item then toUpperCase (name item) :: process rest else process rest.
Proof.
  unfold process, kept, pass1, pass2, pass3, pass4, pass5, pass6.
  rewrite <- rem_2_even, (float_mul_comm lit_2).
  cbn [filter].
  destruct (gt (value item) lit_0_1); cbn [andb]; [|reflexivity].
  cbn [map filter set_processed set_doubled id value].
  destruct (Z.rem (id item) 2 =? 0); cbn [andb]; [|reflexivity].
  cbn [map filter set_processed set_doubled doubled_gt doubled value name].
  destruct (gt (value item * lit_2) lit_0_5); reflexivity.
Qed.

(** C3. On every list of records the six passes, each building its own
    array, produce the sequence that one traversal produces which keeps
    the records with [value > 0.1], an even [id] and [2 * value > 0.5],
    and emits their names in upper case, in order. *)
Theorem process_single_pass (l : list Item) : process l = single_pass l.
Proof.
  induction l as [|item rest IH].
  - reflexivity.
  - rewrite process_cons. cbn [single_pass]. rewrite IH. reflexivity.
Qed.

(** *** Doubling a double

    The binary64 product [x * 2] is computed on the specification of the
    primitive floats: a normal [x] has its exponent raised by one, or
    overflows to an infinity; a subnormal [x] has its mantissa shifted
    by one bit.  Nothing is rounded. *)

Lemma Prim2SF_literals :
  Prim2SF lit_2 = SF_two /\ Prim2SF lit_0_5 = SF_half /\
  Prim2SF lit_0_25 = SF_quarter /\ Prim2SF lit_0_1 = SF_tenth.
Proof. repeat split. Qed.

Lemma bounded_inv (mx : positive) (ex : Z) :
  bounded prec emax mx ex = true ->
  Z.max (Z.pos (digits2_pos mx) + ex - 53) (-1074) = ex /\ ex <= 971.
Proof.
  unfold bounded, canonical_mantissa, fexp, emin, prec, emax.
  intros Hb. apply andb_prop in Hb. destruct Hb as [Hc He].
  apply Z.eqb_eq in Hc. apply Z.leb_le in He. split; [exact Hc|exact He].
Qed.

Lemma SF64mul_two_finite (s : bool) (mx : positive) (ex : Z) :
  bounded prec emax mx ex = true ->
  SF64mul (S754_finite s mx ex) SF_two =
  if Z.pos (digits2_pos mx) =? 53 then
    if ex + 1 <=? 971 then S754_finite s mx (ex + 1) else S754_infinity s
  else S754_finite s mx~0 ex.
Proof.
  intros Hb. apply bounded_inv in Hb. destruct Hb as [Hc He].
  unfold SF64mul, SFmul, SF_two.
  rewrite Pos.mul_comm. cbn [Pos.mul].
  rewrite xorb_false_r.
  unfold binary_round_aux, shr_fexp.
  cbn [Zdigits2 digits2_pos].
  repeat rewrite Pos2Z.inj_succ.
  set (d := Z.pos (digits2_pos mx)) in *.
  unfold fexp, emin, prec, emax.
  destruct (Z.eqb_spec d 53) as [Hd|Hd].
  - (* normal: fifty-two bits are shifted out, all of them zero *)
    match goal with |- context [shr _ _ ?n] => replace n with 52 by lia end.
    unfold shr at 1. cbn [iter_pos shr_1 shr_record_of_loc orb].
    cbn [round_nearest_even shr_m loc_of_shr_record Zdigits2]. fold d.
    match goal with |- context [shr _ _ ?n] => replace n with 0 by lia end.
    unfold shr. cbn [shr_m].
    replace (ex + -51 + 52) with (ex + 1) by lia. reflexivity.
  - (* subnormal: fifty-one bits are shifted out *)
    match goal with |- context [shr _ _ ?n] => replace n with 51 by lia end.
    unfold shr at 1. cbn [iter_pos shr_1 shr_record_of_loc orb].
    cbn [round_nearest_even shr_m loc_of_shr_record Zdigits2 digits2_pos].
    rewrite Pos2Z.inj_succ. fold d.
    match goal with |- context [shr _ _ ?n] => replace n with 0 by lia end.
    unfold shr. cbn [shr_m].
    replace (ex + -51 + 51) with ex by lia.
    destruct (Z.leb_spec ex (1024 - 53)); [reflexivity|lia].
Qed.

Lemma SFltb_half_double (x : spec_float) :
  valid_binary x = true ->
  SFltb SF_half (SF64mul x SF_two) = true ->
  SFltb SF_quarter x = true.
Proof.
  intros Hv. destruct x as [s|s| |s mx ex].
  - destruct s; discriminate.
  - destruct s; [discriminate|reflexivity].
  - discriminate.
  - cbn [valid_binary] in Hv. rewrite (SF64mul_two_finite _ _ _ Hv).
    apply bounded_inv in Hv. destruct Hv as [Hc He].
    destruct s.
    + destruct (_ =? 53); [destruct (_ <=? 971)|]; discriminate.
    + unfold SFltb, SFcompare, SF_half, SF_quarter.
      destruct (Z.eqb_spec (Z.pos (digits2_pos mx)) 53) as [Hd|Hd].
      * destruct (Z.leb_spec (ex + 1) 971) as [Hle|Hgt].
        -- destruct (Z.compare_spec (-53) (ex + 1)); try discriminate;
             destruct (Z.compare_spec (-54) ex); try lia; trivial.
        -- intros _. destruct (Z.compare_spec (-54) ex); try lia; reflexivity.
      * assert (ex = -1074) as -> by lia. discriminate.
Qed.

Lemma SFltb_quarter_tenth (x : spec_float) :
  SFltb SF_quarter x = true -> SFltb SF_tenth x = true.
Proof.
  destruct x as [s|s| |s mx ex]; try discriminate.
  - destruct s; [discriminate|reflexivity].
  - unfold SFltb, SFcompare, SF_quarter, SF_tenth. destruct s; [discriminate|].
    destruct (Z.compare_spec (-54) ex); try discriminate;
      destruct (Z.compare_spec (-56) ex); try lia; reflexivity.
Qed.

Lemma doubled_above_half (v : float) :
  gt (v * lit_2) lit_0_5 = true ->
  gt v lit_0_25 = true /\ gt v lit_0_1 = true.
Proof.
  unfold gt. rewrite !ltb_spec, mul_spec.
  destruct Prim2SF_literals as (-> & -> & -> & ->).
  intros H. apply SFltb_half_double in H; [|apply Prim2SF_valid].
  split; [exact H|apply SFltb_quarter_tenth; exact H].
Qed.

Lemma process_without_pass1_cons (item : Item) (rest : list Item) :
  process_without_pass1 (item :: rest) =
  if (Z.rem (id item) 2 =? 0) && gt (value item * lit_2) lit_0_5
  then toUpperCase (name item) :: process_without_pass1 rest
  else process_without_pass1 rest.
Proof.
  unfold process_without_pass1, pass2, pass3, pass4, pass5, pass6.
  cbn [map filter set_processed set_doubled id value].
  destruct (Z.rem (id item) 2 =? 0); cbn [andb]; [|reflexivity].
  cbn [map filter set_processed set_doubled doubled_gt doubled value name].
  destruct (gt (value item * lit_2) lit_0_5); reflexivity.
Qed.

(** C9. The first filter, [value > 0.1], changes nothing: on every list
    of records the chain without it produces the same sequence.  A
    record that passes [doubled > 0.5] has [value > 0.25], and 0.25 is
    above 0.1. *)
Theorem first_filter_redundant :
  (forall v : float,
      gt (v * lit_2) lit_0_5 = true ->
      gt v lit_0_25 = true /\ gt lit_0_25 lit_0_1 = true /\ gt v lit_0_1 = true) /\
  (forall l : list Item, process_without_pass1 l = process l).
Proof.
  split.
  - intros v Hv. apply doubled_above_half in Hv. destruct Hv as [H1 H2].
    split; [exact H1|]. split; [reflexivity|exact H2].
  - induction l as [|item rest IH]; [reflexivity|].
    rewrite process_without_pass1_cons, process_cons, IH. unfold kept.
    rewrite <- rem_2_even, (float_mul_comm lit_2).
    destruct (gt (value item * lit_2) lit_0_5) eqn:Hd.
    + apply doubled_above_half in Hd. destruct Hd as [_ ->].
      reflexivity.
    + rewrite !andb_false_r. reflexivity.
Qed.

Lemma first_filter_redundant_witness :
  gt (0.375 * lit_2) lit_0_5 = true /\
  gt 0.375 lit_0_25 = true /\ gt lit_0_25 lit_0_1 = true /\ gt 0.375 lit_0_1 = true.
Proof.
  split; [reflexivity|].
  apply (proj1 first_filter_redundant 0.375%float). reflexivity.
Defined.

(** *** The counting loops *)

Lemma for_upto_count (trips : nat) (i k c : Z) (body : Z -> Z -> Z) :
  (forall j s, body j s = s + k) ->
  for_upto trips i body c = c + Z.of_nat trips * k.
Proof.
  intros Hbody. revert i c.
  induction trips as [|n IH]; intros i c; cbn [for_upto].
  - lia.
  - rewrite IH, Hbody. lia.
Qed.

Lemma count_comparisons_total : count_comparisons = 1000000.
Proof.
  unfold count_comparisons, for_range.
  rewrite (for_upto_count _ _ 1000); [reflexivity|].
  intros i s. rewrite (for_upto_count _ _ 1); [reflexivity|].
  intros j c. destruct (i =? j); reflexivity.
Qed.

(** C7. Whatever [Math.random()] returns while the records are built,
    the two nested loops over [0, 1000) run to their end and leave
    [comparisons] at 1,000,000. *)
Theorem comparisons_always_million (rand : nat -> float) :
  snd (inefficientDataProcessing rand) = 1000000.
Proof.
  unfold inefficientDataProcessing. exact count_comparisons_total.
Qed.
(** ** Heavy calculations *)

(** *** Primality *)

Lemma isPrime_loop_spec (fuel : nat) (n i : Z) :
  2 <= i <= n ->
  (Z.to_nat (n - i) < fuel)%nat ->
  (forall d, 2 <= d < i -> ~ (d | n)) ->
  exists b, isPrime_loop fuel n i = Some b /\
            (b = true <-> forall d, 2 <= d < n -> ~ (d | n)).
Proof.
  revert i. induction fuel as [|fuel IH]; intros i Hi Hfuel Hinv; [lia|].
  cbn [isPrime_loop].
  destruct (Z.ltb_spec i n) as [Hlt|Hge].
  - destruct (Z.eqb_spec (Z.rem n i) 0) as [Hrem|Hrem].
    + exists false. split; [reflexivity|].
      split; [discriminate|]. intros Hall. exfalso.
      apply (Hall i); [lia|]. apply Z.rem_divide; [lia|exact Hrem].
    + apply IH; [lia|lia|].
      intros d Hd Hdiv.
      destruct (Z.eq_dec d i) as [->|Hne].
      * apply Hrem. apply Z.rem_divide; [lia|exact Hdiv].
      * apply (Hinv d); [lia|exact Hdiv].
  - exists true. split; [reflexivity|].
    split; [|reflexivity]. intros _ d Hd. apply Hinv. lia.
Qed.

Lemma isPrime_decides (n : Z) :
  exists b, isPrime n = Some b /\ (b = true <-> prime n).
Proof.
  unfold isPrime, isPrime_fuel.
  destruct (Z.ltb_spec n 2) as [Hlt|Hge].
  - exists false. split; [reflexivity|]. split; [discriminate|].
    intros [H1 _]. lia.
  - destruct (isPrime_loop_spec (Z.to_nat n) n 2) as (b & Hb & Hiff);
      [lia|lia|intros d Hd; lia|].
    exists b. split; [exact Hb|].
    rewrite Hiff, <- prime_alt. unfold Z.prime. split.
    + intros Hall. split; [lia|]. intros d Hd. apply Hall. lia.
    + intros [_ Hall] d Hd. apply Hall. lia.
Qed.

Lemma isPrime_true_iff (n : Z) : isPrime n = Some true <-> prime n.
Proof.
  destruct (isPrime_decides n) as (b & Hb & Hiff). rewrite Hb. split.
  - intros [= ->]. apply Hiff. reflexivity.
  - intros Hp. f_equal. apply Hiff. exact Hp.
Qed.

Lemma isPrime_false_iff (n : Z) : isPrime n = Some false <-> ~ prime n.
Proof.
  destruct (isPrime_decides n) as (b & Hb & Hiff). rewrite Hb. split.
  - intros [= ->] Hp. apply Hiff in Hp. discriminate.
  - intros Hnp. destruct b; [|reflexivity].
    exfalso. apply Hnp, Hiff. reflexivity.
Qed.

Lemma in_Zseq (lo : Z) (len : nat) (x : Z) :
  In x (Zseq lo len) <-> lo <= x < lo + Z.of_nat len.
Proof.
  revert lo. induction len as [|len IH]; intros lo; cbn [Zseq In].
  - lia.
  - rewrite IH. lia.
Qed.

Lemma collect_primes_upto (trips : nat) (i : Z) (acc : list Z) :
  for_upto trips i
    (fun i acc =>
       match acc with
       | None => None
       | Some primes =>
           match isPrime i with
           | None => None
           | Some true => Some (push primes i)
           | Some false => Some primes
           end
       end) (Some acc)
  = Some (acc ++ filter found_prime (Zseq i trips)).
Proof.
  revert i acc. induction trips as [|k IH]; intros i acc; cbn [for_upto Zseq filter].
  - rewrite app_nil_r. reflexivity.
  - unfold found_prime at 1.
    destruct (isPrime_decides i) as (b & Hb & _). rewrite Hb.
    destruct b; rewrite IH; [|reflexivity].
    unfold push. rewrite <- app_assoc. reflexivity.
Qed.

Lemma collect_primes_filter (lo hi : Z) :
  collect_primes lo hi = Some (filter found_prime (Zseq lo (Z.to_nat (hi - lo)))).
Proof. unfold collect_primes, for_range. apply collect_primes_upto. Qed.

(** *** Counting the primes below 10000

    Running [isPrime] on every number of the interval costs several
    million remainders.  The count is taken with a cheaper test, division
    by the primes below 100, which agrees with [isPrime] below 10000. *)

Lemma small_primes_cover (m : Z) :
  2 <= m < 100 -> exists p, In p small_primes /\ (p | m) /\ 2 <= p.
Proof.
  intros Hm.
  assert (Hall : forallb (fun m => existsb (fun p => (Z.rem m p =? 0) && (2 <=? p)) small_primes)
                         (Zseq 2 98) = true) by (vm_compute; reflexivity).
  rewrite forallb_forall in Hall.
  specialize (Hall m). rewrite in_Zseq in Hall.
  assert (Hin : 2 <= m < 2 + Z.of_nat 98) by lia.
  apply Hall in Hin. apply existsb_exists in Hin.
  destruct Hin as (p & Hp & Htest). apply andb_prop in Htest.
  destruct Htest as [Hrem Hge]. apply Z.eqb_eq in Hrem. apply Z.leb_le in Hge.
  exists p. split; [exact Hp|]. split; [|exact Hge].
  apply Z.rem_divide; [lia|exact Hrem].
Qed.

Lemma sieved_prime (n : Z) :
  2 <= n < 10000 -> sieved n = true -> prime n.
Proof.
  intros Hn Hs. apply prime_alt. split; [lia|].
  intros d Hd [q Hq].
  assert (Hqb : 1 < q < n) by nia.
  assert (Hsmall : exists m, 2 <= m < 100 /\ m < n /\ (m | n)).
  { destruct (Z_le_gt_dec d q).
    - exists d. split; [nia|]. split; [lia|]. exists q. exact Hq.
    - exists q. split; [nia|]. split; [lia|]. exists d. lia. }
  destruct Hsmall as (m & Hm & Hmlt & Hmn).
  destruct (small_primes_cover m Hm) as (p & Hp & Hpm & Hp2).
  unfold sieved in Hs. rewrite forallb_forall in Hs. specialize (Hs p Hp).
  assert (Hpn : (p | n)) by (eapply Z.divide_trans; eassumption).
  assert (Hple : p <= m) by (apply Z.divide_pos_le; [lia|exact Hpm]).
  apply orb_prop in Hs. destruct Hs as [Hs|Hs].
  - apply Z.leb_le in Hs. lia.
  - apply negb_true_iff, Z.eqb_neq in Hs. apply Hs.
    apply Z.rem_divide; [lia|exact Hpn].
Qed.

Lemma prime_sieved (n : Z) : prime n -> sieved n = true.
Proof.
  intros Hp. apply prime_alt in Hp. destruct Hp as [Hn Hnd].
  assert (Hall : forallb (fun p => 2 <=? p) small_primes = true) by reflexivity.
  rewrite forallb_forall in Hall.
  unfold sieved. apply forallb_forall. intros p Hin.
  specialize (Hall p Hin). apply Z.leb_le in Hall.
  destruct (Z.leb_spec n p) as [Hle|Hlt]; [reflexivity|].
  cbn [orb]. apply negb_true_iff, Z.eqb_neq. intros Hrem.
  apply (Hnd p); [lia|]. apply Z.rem_divide; [lia|exact Hrem].
Qed.

Lemma found_prime_sieved (n : Z) :
  2 <= n < 10000 -> found_prime n = sieved n.
Proof.
  intros Hn. apply eq_true_iff_eq. split.
  - intros H. apply prime_sieved, isPrime_true_iff.
    unfold found_prime in H. destruct (isPrime n) as [[|]|]; [reflexivity|discriminate..].
  - intros H. apply (sieved_prime n Hn), isPrime_true_iff in H.
    unfold found_prime. rewrite H. reflexivity.
Qed.

Lemma primes_below_10000_count :
  List.length (filter found_prime (Zseq 2 (Z.to_nat (10000 - 2)))) = 1229%nat.
Proof.
  rewrite (filter_ext_in found_prime sieved).
  - vm_compute. reflexivity.
  - intros n Hn. apply in_Zseq in Hn. apply found_prime_sieved. lia.
Qed.

(** C2. [isPrime] returns on every integer, with [true] exactly on the
    primes: [true] on 2, [false] on 9; and the collecting loop of
    [heavyCalculations] over [2, 10000) ends with a list of 1229 numbers,
    namely the primes of that interval. *)
Theorem isPrime_correct :
  (forall n : Z,
      (isPrime n = Some true <-> prime n) /\
      (isPrime n = Some false <-> ~ prime n)) /\
  isPrime 2 = Some true /\
  isPrime 9 = Some false /\
  exists primes : list Z,
    collect_primes 2 10000 = Some primes /\
    List.length primes = 1229%nat /\
    (forall p, In p primes <-> 2 <= p < 10000 /\ prime p).
Proof.
  split; [|split; [|split]].
  - intros n. split; [apply isPrime_true_iff|apply isPrime_false_iff].
  - reflexivity.
  - reflexivity.
  - eexists. split; [apply collect_primes_filter|].
    split; [exact primes_below_10000_count|].
    intros p. rewrite filter_In, in_Zseq. unfold found_prime.
    rewrite <- isPrime_true_iff.
    destruct (isPrime p) as [[|]|]; split; intros [H1 H2];
      try discriminate; (split; [lia|reflexivity]).
Qed.

(** *** Fibonacci *)

Lemma fibonacci_fuel_base (fuel : nat) (n : Z) :
  n <= 1 -> fibonacci_fuel (S fuel) n = Some n.
Proof.
  intros Hn. cbn [fibonacci_fuel].
  destruct (Z.leb_spec n 1); [reflexivity|lia].
Qed.

Lemma fibonacci_fuel_step (fuel : nat) (n : Z) :
  1 < n ->
  fibonacci_fuel (S fuel) n =
  match fibonacci_fuel fuel (n - 1), fibonacci_fuel fuel (n - 2) with
  | Some a, Some b => Some (a + b)
  | _, _ => None
  end.
Proof.
  intros Hn. cbn [fibonacci_fuel].
  destruct (Z.leb_spec n 1); [lia|reflexivity].
Qed.

Lemma F_step (k : nat) : F (S (S k)) = F (S k) + F k.
Proof. reflexivity. Qed.

(** Enough fuel gives the Fibonacci number, whatever the surplus. *)
Lemma fibonacci_fuel_F (k fuel : nat) :
  (k <= fuel)%nat ->
  fibonacci_fuel (S fuel) (Z.of_nat k) = Some (F k).
Proof.
  revert fuel. induction k as [k IH] using (well_founded_induction lt_wf).
  intros fuel Hfuel.
  destruct k as [|[|k]].
  - rewrite fibonacci_fuel_base by lia. reflexivity.
  - rewrite fibonacci_fuel_base by lia. reflexivity.
  - rewrite fibonacci_fuel_step by lia.
    destruct fuel as [|fuel]; [lia|].
    replace (Z.of_nat (S (S k)) - 1) with (Z.of_nat (S k)) by lia.
    replace (Z.of_nat (S (S k)) - 2) with (Z.of_nat k) by lia.
    rewrite (IH (S k)) by lia. rewrite (IH k) by lia.
    rewrite F_step. reflexivity.
Qed.

Lemma fibonacci_F (n : Z) : 0 <= n -> fibonacci n = Some (F (Z.to_nat n)).
Proof.
  intros Hn. unfold fibonacci.
  rewrite <- (Z2Nat.id n) at 2 by exact Hn.
  apply fibonacci_fuel_F. lia.
Qed.

(** C8. [fibonacci(10)] is 55, and on every [n] of [0, 35), the range
    [heavyCalculations] runs it on, [fibonacci] returns the Fibonacci
    number [F n]. *)
Theorem fibonacci_standard :
  fibonacci 10 = Some 55 /\
  forall n : Z, 0 <= n < 35 -> fibonacci n = Some (F (Z.to_nat n)).
Proof.
  split; [reflexivity|].
  intros n Hn. apply fibonacci_F. lia.
Qed.

Lemma fibonacci_standard_witness :
  0 <= 34 < 35 /\ fibonacci 34 = Some (F (Z.to_nat 34)).
Proof.
  split; [lia|].
  apply (proj2 fibonacci_standard 34). lia.
Defined.

(** C10. On every integer [n <= 1], the negative ones included,
    [fibonacci] returns [n] itself, and it does so within a single call:
    a call depth of one is enough, so no recursive call is made. *)
Theorem fibonacci_small (n : Z) :
  n <= 1 ->
  fibonacci_fuel 1 n = Some n /\ fibonacci n = Some n.
Proof.
  intros Hn. split; [apply fibonacci_fuel_base; exact Hn|].
  unfold fibonacci. apply fibonacci_fuel_base. exact Hn.
Qed.

Lemma fibonacci_small_witness :
  -5 <= 1 /\ fibonacci_fuel 1 (-5) = Some (-5) /\ fibonacci (-5) = Some (-5).
Proof.
  split; [lia|].
  apply (fibonacci_small (-5)). lia.
Defined.

(** *** The routine as a whole *)

Lemma collect_fibonacci_upto (trips : nat) (i : Z) (acc : list Z) :
  0 <= i ->
  for_upto trips i
    (fun i acc =>
       match acc with
       | None => None
       | Some fibResults =>
           match fibonacci i with
           | None => None
           | Some f => Some (push fibResults f)
           end
       end) (Some acc)
  = Some (acc ++ map (fun j => F (Z.to_nat j)) (Zseq i trips)).
Proof.
  revert i acc. induction trips as [|k IH]; intros i acc Hi; cbn [for_upto Zseq map].
  - rewrite app_nil_r. reflexivity.
  - rewrite (fibonacci_F i Hi), IH by lia.
    unfold push. rewrite <- app_assoc. reflexivity.
Qed.

Lemma length_Zseq (lo : Z) (len : nat) : List.length (Zseq lo len) = len.
Proof.
  revert lo. induction len as [|k IH]; intros lo; cbn [Zseq List.length].
  - reflexivity.
  - rewrite IH. reflexivity.
Qed.

(** [heavyCalculations] runs to its end, with 1229 numbers in [primes]
    and, in [fibResults], the 35 Fibonacci numbers [F 0] to [F 34]. *)
Lemma heavyCalculations_value :
  heavyCalculations =
  Some (filter found_prime (Zseq 2 (Z.to_nat (10000 - 2))),
        map (fun j => F (Z.to_nat j)) (Zseq 0 (Z.to_nat (35 - 0)))).
Proof.
  unfold heavyCalculations, collect_fibonacci, for_range.
  rewrite collect_primes_filter, collect_fibonacci_upto by lia.
  reflexivity.
Qed.

Lemma heavyCalculations_lengths :
  exists primes fibResults : list Z,
    heavyCalculations = Some (primes, fibResults) /\
    List.length primes = 1229%nat /\ List.length fibResults = 35%nat.
Proof.
  rewrite heavyCalculations_value.
  set (primes := filter found_prime _).
  set (fibResults := map _ _).
  exists primes, fibResults. split; [reflexivity|].
  split; [exact primes_below_10000_count|].
  subst fibResults. rewrite length_map, length_Zseq. reflexivity.
Qed.
(** ** Start-up *)

Lemma NoDup_app_apart {A : Type} (l1 l2 : list A) (a : A) :
  NoDup (l1 ++ l2) -> In a l1 -> In a l2 -> False.
Proof.
  induction l1 as [|x l1 IH]; cbn [app In]; intros Hnd H1 H2; [exact H1|].
  inversion Hnd as [|y l Hnotin Hrest]; subst.
  destruct H1 as [->|H1].
  - apply Hnotin, in_or_app. right. exact H2.
  - exact (IH Hrest H1 H2).
Qed.

Section OrchestratorProperties.

Context {St : Type}.
Variable body_of : Routine -> action St unit.

Lemma start_all_in_order (st : St * list Routine) :
  start_all body_of st = call_in_order body_of fixed_order st.
Proof.
  unfold start_all, fixed_order. cbn [call_in_order]. unfold bind, ret.
  repeat (match goal with
          | |- context [call body_of ?r ?s] => destruct (call body_of r s) as [[] ?|? ?]
          end; try reflexivity).
Qed.

Lemma call_returned (r : Routine) (st : St * list Routine) (s' : St) :
  body_of r (fst st) = Returned tt s' ->
  call body_of r st = Returned tt (s', snd st ++ [r]).
Proof. intros H. unfold call. rewrite H. reflexivity. Qed.

Lemma call_raised (r : Routine) (st : St * list Routine) (e : string) (s' : St) :
  body_of r (fst st) = Raised e s' ->
  call body_of r st = Raised e (s', snd st ++ [r]).
Proof. intros H. unfold call. rewrite H. reflexivity. Qed.

(** A run over [rs] calls a prefix of [rs]: all of it when it returns,
    and up to the routine that raised otherwise. *)
Lemma call_in_order_prefix (rs : list Routine) (st : St * list Routine) :
  exists k : nat,
    (k <= List.length rs)%nat /\
    snd (final_state (call_in_order body_of rs st)) = snd st ++ firstn k rs /\
    (returned (call_in_order body_of rs st) -> k = List.length rs) /\
    (forall e, raised (call_in_order body_of rs st) e ->
               exists r s0, nth_error rs (pred k) = Some r /\ (1 <= k)%nat /\
                            raised (body_of r s0) e).
Proof.
  revert st. induction rs as [|r rest IH]; intros st.
  - exists 0%nat. cbn. rewrite app_nil_r.
    split; [lia|]. split; [reflexivity|]. split; [reflexivity|].
    intros e [s H]. discriminate.
  - cbn [call_in_order]. unfold bind.
    destruct (body_of r (fst st)) as [[] s'|e s'] eqn:Hr;
      [rewrite (call_returned _ _ _ Hr)|rewrite (call_raised _ _ _ _ Hr)].
    + destruct (IH (s', snd st ++ [r])) as (k & Hk & Htrace & Hret & Hraise).
      exists (S k). cbn [List.length firstn snd] in *.
      split; [lia|]. split; [rewrite Htrace, <- app_assoc; reflexivity|].
      split; [intros H; rewrite (Hret H); reflexivity|].
      intros e He. destruct (Hraise e He) as (r' & s0 & Hnth & Hk1 & Hbody).
      exists r', s0. split; [|split; [lia|exact Hbody]].
      destruct k as [|k']; [lia|exact Hnth].
    + exists 1%nat. cbn [List.length firstn snd final_state pred nth_error].
      split; [lia|]. split; [reflexivity|].
      split; [intros (a & s & H); discriminate|].
      intros e' [s H]. injection H as <- _.
      exists r, (fst st). split; [reflexivity|]. split; [lia|].
      exists s'. exact Hr.
Qed.

(** A run through routines that return goes on with the rest, from the
    state they leave. *)
Lemma call_in_order_through (pre rest : list Routine) (s s1 : St) (called : list Routine) :
  returns_in_turn body_of pre s s1 ->
  call_in_order body_of (pre ++ rest) (s, called) =
  call_in_order body_of rest (s1, called ++ pre).
Proof.
  intros Hpre. revert called.
  induction Hpre as [s|r pre' s s1 s2 Hr _ IH]; intros called.
  - rewrite app_nil_r. reflexivity.
  - cbn [app call_in_order]. unfold bind.
    rewrite (call_returned r (s, called) s1 Hr). cbn [snd].
    rewrite IH, <- app_assoc. reflexivity.
Qed.

(** Either all the routines of a list return in turn, or one of them is
    the first to raise. *)
Lemma returns_or_raises (rs : list Routine) (s : St) :
  (exists s', returns_in_turn body_of rs s s') \/
  (exists pre r post e s1 s2,
      rs = pre ++ r :: post /\
      returns_in_turn body_of pre s s1 /\
      body_of r s1 = Raised e s2).
Proof.
  revert s. induction rs as [|r rest IH]; intros s.
  - left. exists s. constructor.
  - destruct (body_of r s) as [[] s1|e s1] eqn:Hr.
    + destruct (IH s1) as [(s' & Hall)|(pre & r' & post & e & s2 & s3 & -> & Hpre & Hraise)].
      * left. exists s'. econstructor; eassumption.
      * right. exists (r :: pre), r', post, e, s2, s3.
        split; [reflexivity|]. split; [econstructor; eassumption|exact Hraise].
    + right. exists [], r, rest, e, s, s1.
      split; [reflexivity|]. split; [constructor|exact Hr].
Qed.

(** C1, as the code has it.  With the document already loaded the
    routines are called at once, in the fixed order, none twice.  When
    each of the seven returns on the state the one before left, all
    seven are called and the run returns.  When one of them raises, its
    exception ends the run there: it leaves [start_all] uncaught, the
    routines called are those up to the one that raised, and none of
    those after it is called.  Every run is of one of these two kinds. *)
Theorem orchestrator_invocations (readyState : string) (s : St) :
  readyState <> "loading"%string ->
  exists (out : completion (St * list Routine) unit) (k : nat),
    dispatch body_of readyState s = Started out /\
    (1 <= k <= 7)%nat /\
    invoked out = firstn k fixed_order /\
    NoDup (invoked out) /\
    (returned out -> invoked out = fixed_order) /\
    (forall s', returns_in_turn body_of fixed_order s s' ->
                out = Returned tt (s', fixed_order)) /\
    (forall pre r post e s1 s2,
        fixed_order = pre ++ r :: post ->
        returns_in_turn body_of pre s s1 ->
        body_of r s1 = Raised e s2 ->
        out = Raised e (s2, pre ++ [r]) /\
        forall r', In r' post -> ~ In r' (invoked out)) /\
    ((exists s', returns_in_turn body_of fixed_order s s') \/
     (exists pre r post e s1 s2,
         fixed_order = pre ++ r :: post /\
         returns_in_turn body_of pre s s1 /\
         body_of r s1 = Raised e s2)).
Proof.
  intros Hloaded. unfold dispatch.
  destruct (String.eqb_spec readyState "loading") as [Heq|_]; [contradiction|].
  exists (start_all body_of (s, [])).
  rewrite start_all_in_order. unfold invoked.
  destruct (call_in_order_prefix fixed_order (s, []))
    as (k & Hk & Htrace & Hret & Hraise).
  cbn [snd app] in Htrace. change (List.length fixed_order) with 7%nat in *.
  assert (Hnodup : NoDup fixed_order).
  { unfold fixed_order. repeat constructor; cbn; intuition discriminate. }
  assert (Hpos : (1 <= k)%nat).
  { destruct (call_in_order body_of fixed_order (s, [])) as [[] s1|e s1] eqn:Hout.
    - rewrite Hret; [lia|]. exists tt, s1. reflexivity.
    - destruct (Hraise e) as (_ & _ & _ & H & _); [exists s1; reflexivity|exact H]. }
  exists k. split; [reflexivity|]. split; [lia|]. split; [exact Htrace|].
  rewrite Htrace.
  split.
  { rewrite <- (firstn_skipn k fixed_order) in Hnodup.
    apply NoDup_app_remove_r in Hnodup. exact Hnodup. }
  split.
  { intros H. rewrite (Hret H). reflexivity. }
  split.
  { intros s' Hall.
    rewrite <- (app_nil_r fixed_order) at 1.
    rewrite (call_in_order_through fixed_order [] s s' [] Hall). reflexivity. }
  split; [|apply returns_or_raises].
  intros pre r post e s1 s2 Hsplit Hpre Hr.
  assert (Hout : call_in_order body_of fixed_order (s, []) = Raised e (s2, pre ++ [r])).
  { rewrite Hsplit, (call_in_order_through pre (r :: post) s s1 [] Hpre).
    cbn [call_in_order app]. unfold bind.
    rewrite (call_raised r (s1, pre) e s2 Hr). reflexivity. }
  split; [exact Hout|].
  intros r' Hlater Hearlier.
  rewrite <- Htrace, Hout in Hearlier. cbn [final_state snd] in Hearlier.
  rewrite Hsplit in Hnodup.
  change (pre ++ r :: post) with (pre ++ [r] ++ post) in Hnodup.
  rewrite app_assoc in Hnodup.
  exact (NoDup_app_apart _ _ r' Hnodup Hearlier Hlater).
Qed.

End OrchestratorProperties.

(** A page with a body, and the seven routines of the script. *)
Lemma orchestrator_invocations_witness :
  exists (out : completion (World * list Routine) unit) (k : nat),
    dispatch script_body "complete" two_children = Started out /\
    (1 <= k <= 7)%nat /\
    invoked out = firstn k fixed_order /\
    NoDup (invoked out) /\
    (returned out -> invoked out = fixed_order) /\
    (forall s', returns_in_turn script_body fixed_order two_children s' ->
                out = Returned tt (s', fixed_order)) /\
    (forall pre r post e s1 s2,
        fixed_order = pre ++ r :: post ->
        returns_in_turn script_body pre two_children s1 ->
        script_body r s1 = Raised e s2 ->
        out = Raised e (s2, pre ++ [r]) /\
        forall r', In r' post -> ~ In r' (invoked out)) /\
    ((exists s', returns_in_turn script_body fixed_order two_children s') \/
     (exists pre r post e s1 s2,
         fixed_order = pre ++ r :: post /\
         returns_in_turn script_body pre two_children s1 /\
         script_body r s1 = Raised e s2)).
Proof.
  apply (orchestrator_invocations script_body "complete" two_children).
  discriminate.
Defined.

(** While the document is loading nothing is called: the seven calls
    are the body of the listener. *)
Example dispatch_loading {St : Type} (body_of : Routine -> action St unit) (s : St) :
  dispatch body_of "loading" s = Deferred (start_all body_of).
Proof. reflexivity. Qed.

(** C1, as stated, fails.  On a loaded page without a body the first
    routine raises a [TypeError] at its first [appendChild]; the
    exception leaves [start_all], and [badAnimation], next in line, is
    not called, nor is any routine after it. *)
Lemma exception_stops_the_run :
  exists out : completion (World * list Routine) unit,
    dispatch script_body "complete" no_body = Started out /\
    raised (script_body DOMManipulation no_body) "TypeError" /\
    raised out "TypeError" /\
    invoked out = [DOMManipulation] /\
    ~ In Animation (invoked out).
Proof.
  eexists. split; [reflexivity|].
  split; [eexists; reflexivity|].
  split; [eexists; reflexivity|].
  split; [reflexivity|].
  cbn. intuition discriminate.
Qed.

(** *** The last two routines on the page *)

Lemma with_draws_again (w : World) (a b : nat) :
  with_draws (with_draws w a) b = with_draws w b.
Proof. reflexivity. Qed.

Lemma with_draws_same (w : World) : with_draws w (draws w) = w.
Proof. destruct w. reflexivity. Qed.

(** [len] calls of [Math.random()] in a row take the next [len] draws. *)
Lemma Array_from_random (len : nat) (i : Z) (w : World) :
  Array_from len i (fun _ => Math_random) w =
  Returned (map (random w) (seq (draws w) len)) (with_draws w (draws w + len)).
Proof.
  revert i w. induction len as [|k IH]; intros i w; cbn [Array_from seq map].
  - unfold ret. rewrite Nat.add_0_r, with_draws_same. reflexivity.
  - unfold bind, Math_random, ret. rewrite IH. world_simpl.
    rewrite with_draws_again. do 2 f_equal. lia.
Qed.

Lemma synthesize_on_page_spec (i : Z) (w : World) :
  synthesize_on_page i w =
  Returned (mkItem i ("Item " ++ decimal i) (random w (draws w))
                   (map (random w) (seq (S (draws w)) 100)) None None)
           (with_draws w (draws w + 101)).
Proof.
  unfold synthesize_on_page, bind, Math_random, ret.
  rewrite Array_from_random. world_simpl. rewrite with_draws_again.
  do 2 f_equal. lia.
Qed.

Lemma map_seq_from (f : nat -> float) (d a len : nat) :
  map (fun k => f (d + k)%nat) (seq a len) = map f (seq (d + a) len).
Proof.
  revert a. induction len as [|k IH]; intros a; cbn [seq map]; [reflexivity|].
  rewrite IH. replace (d + S a)%nat with (S (d + a)) by lia. reflexivity.
Qed.

(** The records built on the page are those of [synthesize], read on
    the draws that are still to come. *)
Lemma Array_from_synthesize (len j : nat) (w : World) (d : nat) :
  draws w = (d + 101 * j)%nat ->
  Array_from len (Z.of_nat j) synthesize_on_page w =
  Returned (map (synthesize (fun k => random w (d + k)%nat)) (Zseq (Z.of_nat j) len))
           (with_draws w (d + 101 * (j + len))).
Proof.
  revert j w. induction len as [|k IH]; intros j w Hd; cbn [Array_from Zseq map].
  - unfold ret. rewrite Nat.add_0_r, <- Hd, with_draws_same. reflexivity.
  - unfold bind at 1. rewrite synthesize_on_page_spec.
    replace (Z.of_nat j + 1) with (Z.of_nat (S j)) by lia.
    unfold bind at 1.
    rewrite (IH (S j)) by (world_simpl; lia).
    world_simpl. unfold ret. rewrite with_draws_again. f_equal.
    + f_equal. unfold synthesize.
      replace (Z.to_nat (101 * Z.of_nat j)) with (101 * j)%nat by lia.
      rewrite Hd, map_seq_from. do 3 f_equal. lia.
    + f_equal. lia.
Qed.

(** On the page [inefficientDataProcessing] reports what it reports on
    the draws to come, and has taken 101 of them for each record. *)
Lemma inefficientDataProcessing_on_page_spec (w : World) :
  inefficientDataProcessing_on_page w =
  Returned (inefficientDataProcessing (fun k => random w (draws w + k)%nat))
           (with_draws w (draws w + 101 * Z.to_nat 10000)).
Proof.
  unfold inefficientDataProcessing_on_page, bind.
  change 0 with (Z.of_nat 0) at 1.
  rewrite (Array_from_synthesize (Z.to_nat 10000) 0 w (draws w)) by lia.
  reflexivity.
Qed.

Lemma script_body_DataProcessing (w : World) :
  script_body DataProcessing w =
  Returned tt (with_draws w (draws w + 101 * Z.to_nat 10000)).
Proof.
  cbn [script_body]. unfold bind at 1.
  rewrite inefficientDataProcessing_on_page_spec. reflexivity.
Qed.

(** [heavyCalculations] finishes within its fuel, so on the page it
    returns. *)
Lemma script_body_Calculations (w : World) :
  script_body Calculations w = Returned tt w.
Proof.
  cbn [script_body]. unfold bind, within_fuel.
  rewrite heavyCalculations_value. reflexivity.
Qed.

(** On a loaded page with a well-formed body every routine of the script
    returns, so all seven are called, in the fixed order. *)
Lemma script_calls_all (w : World) :
  body_well_formed w ->
  exists out : completion (World * list Routine) unit,
    dispatch script_body "complete" w = Started out /\
    returned out /\
    invoked out = fixed_order.
Proof.
  unfold body_well_formed. intros Hwf.
  destruct (document_body w) as [children|] eqn:Hbody; [|contradiction].
  pose proof (churn_loop_spec 100 0 w children Hbody Hwf) as Hchurn.
  match type of Hchurn with _ = Returned tt ?w' => set (w1 := w') in Hchurn end.
  eexists. split; [reflexivity|].
  assert (Hrun : exists w7, start_all script_body (w, []) = Returned tt (w7, fixed_order)).
  { unfold start_all, bind.
    rewrite (call_returned script_body DOMManipulation (w, []) w1 Hchurn).
    erewrite (call_returned script_body Animation) by reflexivity.
    erewrite (call_returned script_body MemoryLeaks) by reflexivity.
    erewrite (call_returned script_body Regex) by apply inefficientRegex_returns.
    erewrite (call_returned script_body Requests) by apply synchronousRequests_returns.
    erewrite (call_returned script_body DataProcessing) by apply script_body_DataProcessing.
    erewrite (call_returned script_body Calculations) by apply script_body_Calculations.
    eexists. reflexivity. }
  destruct Hrun as [w7 Hrun]. rewrite Hrun.
  split; [exists tt, (w7, fixed_order); reflexivity|reflexivity].
Qed.
(** * Further properties *)

(** ** Busy-wait, continued *)

Lemma sleep_loop_first (fuel : nat) (now : nat -> Z) (start ms : Z) (k r : nat) :
  sleep_loop fuel now start ms k = Some r ->
  forall j : nat, (k <= j < r)%nat -> now j - start < ms.
Proof.
  revert k. induction fuel as [|fuel IH]; intros k; cbn [sleep_loop]; [discriminate|].
  destruct (Z.ltb_spec (now k - start) ms) as [Hlt|Hge].
  - intros H j Hj. destruct (Nat.eq_dec j k) as [->|Hne]; [exact Hlt|].
    apply (IH (S k) H). lia.
  - intros [= <-] j Hj. lia.
Qed.

(** With the first late reading at [r], the loop started at reading [k]
    ends there as soon as it is given the [r - k + 1] turns it takes, and
    not with fewer. *)
Lemma sleep_loop_at (now : nat -> Z) (start ms : Z) (r : nat) (fuel k : nat) :
  (k <= r)%nat ->
  (forall j : nat, (k <= j < r)%nat -> now j - start < ms) ->
  ms <= now r - start ->
  ((r - k < fuel)%nat -> sleep_loop fuel now start ms k = Some r) /\
  ((fuel <= r - k)%nat -> sleep_loop fuel now start ms k = None).
Proof.
  revert k. induction fuel as [|fuel IH]; intros k Hk Hshort Hlate; cbn [sleep_loop].
  - split; [lia|reflexivity].
  - destruct (Z.ltb_spec (now k - start) ms) as [Hlt|Hge].
    + assert (Hne : (S k <= r)%nat).
      { destruct (Nat.eq_dec k r) as [->|]; lia. }
      destruct (IH (S k) Hne) as [Hsome Hnone]; [intros j Hj; apply Hshort; lia|exact Hlate|].
      split; intros Hf; [apply Hsome|apply Hnone]; lia.
    + assert (Heq : k = r).
      { destruct (Nat.eq_dec k r) as [|Hne]; [assumption|].
        specialize (Hshort k). lia. }
      subst k. split; [reflexivity|lia].
Qed.

(** X1. [sleep] returns, and at the first reading that is late enough.
    Once some reading of the clock is [D] past the one taken on entry,
    there is a first such reading [r]; [sleep(D)] returns at [r] whenever
    it is given the [r] turns of the loop that lead there, and has not
    returned with fewer.  Every reading before [r] was short of [D].  No
    assumption on the clock is needed beyond the late reading. *)
Theorem sleep_returns_at_first_late_reading (now : nat -> Z) (D : Z) (k : nat) :
  (1 <= k)%nat ->
  D <= now k - now 0%nat ->
  exists r : nat,
    (1 <= r <= k)%nat /\
    D <= now r - now 0%nat /\
    (forall j : nat, (1 <= j < r)%nat -> now j - now 0%nat < D) /\
    forall fuel : nat,
      ((r <= fuel)%nat -> sleep fuel now D = Some r) /\
      ((fuel < r)%nat -> sleep fuel now D = None).
Proof.
  intros Hk Hlate.
  destruct k as [|gap]; [lia|].
  destruct (sleep_loop_returns now (now 0%nat) D gap 1) as (r & Hr & Hb).
  { replace (1 + gap)%nat with (S gap) by lia. exact Hlate. }
  destruct (sleep_loop_exit _ _ _ _ _ _ Hr) as [Hr1 Hrlate].
  pose proof (sleep_loop_first _ _ _ _ _ _ Hr) as Hshort.
  exists r. split; [lia|]. split; [exact Hrlate|]. split; [exact Hshort|].
  intros fuel. unfold sleep.
  destruct (sleep_loop_at now (now 0%nat) D r fuel 1 Hr1 Hshort Hrlate) as [Hsome Hnone].
  split; intros Hf; [apply Hsome|apply Hnone]; lia.
Qed.

(** A clock that starts at 1000 and gains 3 ms per reading, and a wait
    of 10 ms: the tenth reading is late enough (the first such is the
    fourth). *)
Lemma sleep_returns_at_first_late_reading_witness :
  exists r : nat,
    (1 <= r <= 10)%nat /\
    10 <= (1000 + 3 * Z.of_nat r) - (1000 + 3 * Z.of_nat 0) /\
    (forall j : nat, (1 <= j < r)%nat ->
                     (1000 + 3 * Z.of_nat j) - (1000 + 3 * Z.of_nat 0) < 10) /\
    forall fuel : nat,
      ((r <= fuel)%nat -> sleep fuel (fun k => 1000 + 3 * Z.of_nat k) 10 = Some r) /\
      ((fuel < r)%nat -> sleep fuel (fun k => 1000 + 3 * Z.of_nat k) 10 = None).
Proof.
  apply (sleep_returns_at_first_late_reading (fun k => 1000 + 3 * Z.of_nat k) 10 10); lia.
Defined.

Lemma sleep_loop_stalled (fuel : nat) (now : nat -> Z) (start ms : Z) (k : nat) :
  (forall j : nat, (k <= j)%nat -> now j - start < ms) ->
  sleep_loop fuel now start ms k = None.
Proof.
  revert k. induction fuel as [|fuel IH]; intros k Hshort; cbn [sleep_loop]; [reflexivity|].
  destruct (Z.ltb_spec (now k - start) ms) as [_|Hge].
  - apply IH. intros j Hj. apply Hshort. lia.
  - specialize (Hshort k (Nat.le_refl k)). lia.
Qed.

(** X2. [sleep] has no way out but the clock: as long as no reading
    reaches [D] past the first, for instance because the clock stands
    still, the loop does not end, however many turns it is given. *)
Theorem sleep_never_returns_early (now : nat -> Z) (D : Z) :
  (forall j : nat, (1 <= j)%nat -> now j - now 0%nat < D) ->
  forall fuel : nat, sleep fuel now D = None.
Proof.
  intros Hshort fuel. unfold sleep. apply sleep_loop_stalled. exact Hshort.
Qed.

(** A clock stuck at 5 and a wait of one millisecond. *)
Lemma sleep_never_returns_early_witness :
  sleep 1000 (fun _ => 5) 1 = None.
Proof.
  apply (sleep_never_returns_early (fun _ => 5) 1).
  intros j Hj. lia.
Defined.

(** X3. A wait of zero or of a negative number of milliseconds ends at
    the first test of the loop, provided the clock has not gone back
    since the entry. *)
Theorem sleep_nonpositive (now : nat -> Z) (D : Z) (fuel : nat) :
  D <= 0 ->
  now 0%nat <= now 1%nat ->
  sleep (S fuel) now D = Some 1%nat.
Proof.
  intros HD Hclock. unfold sleep. cbn [sleep_loop].
  destruct (Z.ltb_spec (now 1%nat - now 0%nat) D); [lia|reflexivity].
Qed.

Lemma sleep_nonpositive_witness :
  sleep 1 (fun k => 1000 + 3 * Z.of_nat k) (-20) = Some 1%nat.
Proof.
  apply (sleep_nonpositive (fun k => 1000 + 3 * Z.of_nat k) (-20) 0); cbn; lia.
Defined.

(** ** DOM churn, continued *)

Lemma churn_once_no_body (i : Z) (w : World) :
  document_body w = None ->
  churn_once i w =
  Raised "TypeError"
    (mkWorld None (S (next_node w)) (mutations w) (reflows w) (document_listeners w)
             (next_function w) (window_memoryLeaks w) (intervals w) (random w)
             (S (S (draws w))) (network w)).
Proof.
  intros Hbody.
  unfold churn_once, bind, createElement, Math_random, appendChild, throw.
  world_simpl. rewrite Hbody.
  unfold with_draws, with_next_node. world_simpl. rewrite Hbody. reflexivity.
Qed.

(** With a body, whatever its children, a turn of the loop returns and
    leaves a body: the element it removes is the one it has just
    attached. *)
Lemma churn_once_with_body (i : Z) (w : World) (children : list Element) :
  document_body w = Some children ->
  exists w' children',
    churn_once i w = Returned tt w' /\ document_body w' = Some children'.
Proof.
  intros Hbody.
  unfold churn_once, bind, createElement, Math_random, appendChild, offsetHeight,
    removeChild.
  world_simpl. rewrite Hbody. world_simpl.
  match goal with |- context [?l ++ [?el]] => set (div := el); set (others := l) end.
  replace (is_child (next_node w) (others ++ [div])) with true
    by (symmetry; apply (is_child_last div)).
  eexists. eexists. split; reflexivity.
Qed.

Lemma churn_loop_with_body (trips : nat) (i : Z) (w : World) (children : list Element) :
  document_body w = Some children ->
  exists w' children',
    for_each trips i churn_once w = Returned tt w' /\ document_body w' = Some children'.
Proof.
  revert i w children. induction trips as [|k IH]; intros i w children Hbody.
  - exists w, children. split; [reflexivity|exact Hbody].
  - cbn [for_each]. unfold bind.
    destruct (churn_once_with_body i w children Hbody) as (w1 & children1 & Hrun & Hbody1).
    rewrite Hrun. apply (IH (i + 1) w1 children1 Hbody1).
Qed.

Lemma churn_raises_iff_no_body_aux (w : World) :
  document_body w = None <->
  exists s, inefficientDOMManipulation w = Raised "TypeError" s.
Proof.
  unfold inefficientDOMManipulation. split.
  - intros Hbody.
    change (for_each 100 0 churn_once w)
      with (bind (churn_once 0) (fun _ => for_each 99 (0 + 1) churn_once) w).
    unfold bind. rewrite (churn_once_no_body 0 w Hbody). eexists. reflexivity.
  - intros (s & Hraise). destruct (document_body w) as [children|] eqn:Hbody; [|reflexivity].
    destruct (churn_loop_with_body 100 0 w children Hbody) as (w' & children' & Hrun & _).
    rewrite Hrun in Hraise. discriminate.
Qed.

(** X4. [inefficientDOMManipulation] fails on exactly one kind of page,
    the page without a body.  It then raises a [TypeError] at its first
    [appendChild]: one element has been created and two random numbers
    drawn, nothing has been attached and no layout forced.  On every
    page with a body it returns. *)
Theorem churn_raises_iff_no_body (w : World) :
  ((exists e, raised (inefficientDOMManipulation w) e) <-> document_body w = None) /\
  (forall e,
      raised (inefficientDOMManipulation w) e ->
      e = "TypeError"%string /\
      mutations (final_state (inefficientDOMManipulation w)) = mutations w /\
      reflows (final_state (inefficientDOMManipulation w)) = reflows w /\
      next_node (final_state (inefficientDOMManipulation w)) = S (next_node w) /\
      draws (final_state (inefficientDOMManipulation w)) = S (S (draws w))).
Proof.
  unfold inefficientDOMManipulation.
  destruct (document_body w) as [children|] eqn:Hbody.
  - destruct (churn_loop_with_body 100 0 w children Hbody) as (w' & children' & Hrun & _).
    rewrite Hrun. split.
    + split; [intros (e & s & H); discriminate|discriminate].
    + intros e (s & H). discriminate.
  - change (for_each 100 0 churn_once w)
      with (bind (churn_once 0) (fun _ => for_each 99 (0 + 1) churn_once) w).
    unfold bind. rewrite (churn_once_no_body 0 w Hbody). split.
    + split; [reflexivity|]. intros _. exists "TypeError"%string. eexists. reflexivity.
    + intros e (s & H). injection H as <- _. cbn [final_state]. world_simpl.
      repeat split.
Qed.

(** X5. What a run costs on a page with a well-formed body: 100 forced
    layouts, one per turn, 200 draws of [Math.random()], two per turn,
    and 100 element identities.  Listeners, timers and
    [window.memoryLeaks] are as they were. *)
Theorem churn_cost (w : World) :
  body_well_formed w ->
  exists w',
    inefficientDOMManipulation w = Returned tt w' /\
    reflows w' = (reflows w + 100)%nat /\
    draws w' = (draws w + 200)%nat /\
    next_node w' = (next_node w + 100)%nat /\
    document_listeners w' = document_listeners w /\
    intervals w' = intervals w /\
    window_memoryLeaks w' = window_memoryLeaks w.
Proof.
  unfold body_well_formed. intros Hwf.
  destruct (document_body w) as [children|] eqn:Hbody; [|contradiction].
  eexists. split; [apply (churn_loop_spec 100 0 w children Hbody Hwf)|].
  world_simpl. repeat split.
Qed.

Lemma churn_cost_witness :
  exists w',
    inefficientDOMManipulation two_children = Returned tt w' /\
    reflows w' = (reflows two_children + 100)%nat /\
    draws w' = (draws two_children + 200)%nat /\
    next_node w' = (next_node two_children + 100)%nat /\
    document_listeners w' = document_listeners two_children /\
    intervals w' = intervals two_children /\
    window_memoryLeaks w' = window_memoryLeaks two_children.
Proof.
  apply (churn_cost two_children).
  unfold body_well_formed, two_children. cbn [document_body next_node].
  repeat constructor.
Defined.

(** ** The animation callback *)

Section AnimationProperties.

Variables Math_sin Math_cos : float -> float.

Local Abbreviation animate := (animate Math_sin Math_cos).
Local Abbreviation animation_callback := (animation_callback Math_sin Math_cos).
Local Abbreviation after_frames := (after_frames Math_sin Math_cos).

Lemma selected_restyle (c index : Z) (el : Box) :
  selected (restyle Math_sin Math_cos c index el) = selected el.
Proof. reflexivity. Qed.

(** The walk changes no class, so it selects what was selected, passes
    over the rest untouched, and keeps the length and the order. *)
Lemma animate_frame (c index : Z) (page : list Box) :
  map classList (animate c index page) = map classList page /\
  map selected (animate c index page) = map selected page /\
  filter (fun b => negb (selected b)) (animate c index page) =
    filter (fun b => negb (selected b)) page.
Proof.
  revert index. induction page as [|el rest IH]; intros index; cbn [animate].
  - repeat split.
  - destruct (selected el) eqn:Hsel.
    + destruct (IH (index + 1)) as (H1 & H2 & H3).
      cbn [map filter]. rewrite selected_restyle, Hsel, H1, H2, H3.
      cbn [negb restyle classList]. repeat split.
    + destruct (IH index) as (H1 & H2 & H3).
      cbn [map filter]. rewrite Hsel, H1, H2, H3. cbn [negb]. repeat split.
Qed.

Lemma filter_selected_animate (c index : Z) (page : list Box) :
  List.length (filter selected (animate c index page)) =
  List.length (filter selected page).
Proof.
  revert index. induction page as [|el rest IH]; intros index; cbn [animate].
  - reflexivity.
  - destruct (selected el) eqn:Hsel; cbn [filter].
    + rewrite selected_restyle, Hsel. cbn [List.length]. rewrite IH. reflexivity.
    + rewrite Hsel. apply IH.
Qed.

(** The selected elements after the walk, in order: the [k]-th of them
    was given the index [index + k]. *)
Lemma animate_selected (c index : Z) (page : list Box) (k : nat) (b : Box) :
  nth_error (filter selected (animate c index page)) k = Some b ->
  style_left b = Some (Z.rem (c + (index + Z.of_nat k) * 10) 300) /\
  style_width b = Some (lit_50 + Math_sin (to_double c * lit_0_1) * lit_20)%float /\
  style_height b = Some (lit_50 + Math_cos (to_double c * lit_0_1) * lit_20)%float.
Proof.
  revert index k. induction page as [|el rest IH]; intros index k; cbn [animate].
  - destruct k; discriminate.
  - destruct (selected el) eqn:Hsel; cbn [filter].
    + rewrite selected_restyle, Hsel. destruct k as [|k]; cbn [nth_error].
      * intros [= <-]. cbn [restyle style_left style_width style_height].
        rewrite Z.add_0_r. repeat split.
      * intros H. apply IH in H.
        replace (index + Z.of_nat (S k)) with (index + 1 + Z.of_nat k) by lia.
        exact H.
    + rewrite Hsel. apply IH.
Qed.

(** X8. One run of the animation callback moves each selected element
    to a place that depends only on the counter and on its rank: with
    the counter at [c >= 0] before the run, the [k]-th selected element
    gets [left = (c + 1 + 10 k) mod 300], a value in [0, 300); and all
    selected elements get the same [width] and the same [height]. *)
Theorem animation_places (st : Stage) (k : nat) (b : Box) :
  0 <= animationCounter st ->
  nth_error (filter selected (boxes (animation_callback st))) k = Some b ->
  exists x : Z,
    style_left b = Some x /\
    x = (animationCounter st + 1 + 10 * Z.of_nat k) mod 300 /\
    0 <= x < 300 /\
    style_width b =
      Some (lit_50 + Math_sin (to_double (animationCounter st + 1) * lit_0_1) * lit_20)%float /\
    style_height b =
      Some (lit_50 + Math_cos (to_double (animationCounter st + 1) * lit_0_1) * lit_20)%float.
Proof.
  intros Hc H. cbn [animation_callback boxes] in H.
  apply animate_selected in H. destruct H as (Hl & Hw & Hh).
  eexists. split; [exact Hl|]. split; [|split; [|split; [exact Hw|exact Hh]]].
  - rewrite Z.rem_mod_nonneg by lia. f_equal. lia.
  - rewrite Z.rem_mod_nonneg by lia. apply Z.mod_pos_bound. lia.
Qed.

(** X9. The callback writes to the selected elements only.  The page
    keeps its length, its order and every class list; an element that
    is not selected keeps its styles; the counter goes up by one; and
    one layout is forced for each selected element. *)
Theorem animation_frame (st : Stage) :
  animationCounter (animation_callback st) = animationCounter st + 1 /\
  map classList (boxes (animation_callback st)) = map classList (boxes st) /\
  map selected (boxes (animation_callback st)) = map selected (boxes st) /\
  filter (fun b => negb (selected b)) (boxes (animation_callback st)) =
    filter (fun b => negb (selected b)) (boxes st) /\
  forced_layouts (animation_callback st) =
    (forced_layouts st + List.length (filter selected (boxes st)))%nat.
Proof.
  cbn [animation_callback animationCounter boxes forced_layouts].
  destruct (animate_frame (animationCounter st + 1) 0 (boxes st)) as (H1 & H2 & H3).
  repeat split; assumption.
Qed.

Lemma after_frames_counts (n : nat) (st : Stage) :
  animationCounter (after_frames n st) = animationCounter st + Z.of_nat n /\
  List.length (filter selected (boxes (after_frames n st))) =
    List.length (filter selected (boxes st)) /\
  forced_layouts (after_frames n st) =
    (forced_layouts st + n * List.length (filter selected (boxes st)))%nat.
Proof.
  induction n as [|k IH]; cbn [after_frames].
  - repeat split; lia.
  - destruct IH as (Hc & Hs & Hf).
    cbn [animation_callback animationCounter boxes forced_layouts].
    rewrite filter_selected_animate, Hc, Hs, Hf. repeat split; lia.
Qed.

(** X10. The timer is never cleared, and each of its ticks costs the
    same: after [n] runs of the callback the counter has gone up by [n]
    and [n] times the number of selected elements layouts have been
    forced. *)
Theorem animation_cost (n : nat) (st : Stage) :
  animationCounter (after_frames n st) = animationCounter st + Z.of_nat n /\
  forced_layouts (after_frames n st) =
    (forced_layouts st + n * List.length (filter selected (boxes st)))%nat.
Proof.
  destruct (after_frames_counts n st) as (Hc & _ & Hf). split; assumption.
Qed.

Lemma map_style_left_animate (c c' index : Z) (page : list Box) :
  (forall k : Z, 0 <= k -> Z.rem (c + k * 10) 300 = Z.rem (c' + k * 10) 300) ->
  0 <= index ->
  map style_left (animate c index page) = map style_left (animate c' index page).
Proof.
  intros Hsame. revert index. induction page as [|el rest IH]; intros index Hi; cbn [animate].
  - reflexivity.
  - destruct (selected el); cbn [map].
    + rewrite IH by lia. cbn [restyle style_left]. rewrite (Hsame index Hi). reflexivity.
    + rewrite IH by lia. reflexivity.
Qed.

(** X11. The horizontal motion has period 300: run with the counter
    300 ticks further on, the callback gives every element the [left]
    it gives it now. *)
Theorem animation_period (st : Stage) :
  0 <= animationCounter st ->
  map style_left
      (boxes (animation_callback
                (mkStage (animationCounter st + 300) (boxes st) (forced_layouts st)))) =
  map style_left (boxes (animation_callback st)).
Proof.
  intros Hc. cbn [animation_callback animationCounter boxes].
  apply map_style_left_animate; [|lia].
  intros k Hk. rewrite !Z.rem_mod_nonneg by lia.
  replace (animationCounter st + 300 + 1 + k * 10)
    with (animationCounter st + 1 + k * 10 + 1 * 300) by lia.
  apply Z.mod_add. lia.
Qed.

End AnimationProperties.

Lemma animation_places_witness :
  exists x : Z,
    Some (Z.rem (8 + 1 * 10) 300) = Some x /\
    x = (7 + 1 + 10 * Z.of_nat 1) mod 300 /\
    0 <= x < 300.
Proof.
  destruct (animation_places (fun x => x) (fun x => x) small_stage 1
              (restyle (fun x => x) (fun x => x) 8 1
                       (mkBox ["card"%string; "scaling-element"%string] None None None)))
    as (x & Hx & Heq & Hb & _).
  - cbn. lia.
  - reflexivity.
  - exists x. split; [exact Hx|]. split; [exact Heq|exact Hb].
Defined.

Lemma animation_period_witness :
  map style_left
      (boxes (animation_callback (fun x => x) (fun x => x)
                (mkStage (7 + 300) (boxes small_stage) 0))) =
  map style_left (boxes (animation_callback (fun x => x) (fun x => x) small_stage)).
Proof.
  apply (animation_period (fun x => x) (fun x => x) small_stage).
  cbn. lia.
Defined.

(** ** Leaks, continued *)

Lemma leak_tick_fields (w : World) :
  document_listeners (leak_tick w) = document_listeners w ++ registrations (next_function w) /\
  next_function (leak_tick w) = S (next_function w) /\
  memoryLeaks_list (leak_tick w) = memoryLeaks_list w ++ [mkClosure (querySelectorAll_all w)] /\
  document_body (leak_tick w) = document_body w /\
  intervals (leak_tick w) = intervals w.
Proof.
  unfold leak_tick, memoryLeaks_list, querySelectorAll_all, registrations, push.
  world_simpl. destruct (window_memoryLeaks w); repeat split.
Qed.

Lemma after_ticks_fields (n : nat) (w : World) :
  document_listeners (after_ticks n w) =
    document_listeners w ++ flat_map registrations (seq (next_function w) n) /\
  next_function (after_ticks n w) = (next_function w + n)%nat /\
  memoryLeaks_list (after_ticks n w) =
    memoryLeaks_list w ++ repeat (mkClosure (querySelectorAll_all w)) n /\
  document_body (after_ticks n w) = document_body w /\
  intervals (after_ticks n w) = intervals w.
Proof.
  induction n as [|k IH]; cbn [after_ticks].
  - cbn [seq flat_map repeat]. rewrite !app_nil_r, Nat.add_0_r. repeat split.
  - destruct IH as (Hl & Hf & Hm & Hb & Hi).
    destruct (leak_tick_fields (after_ticks k w)) as (Hl' & Hf' & Hm' & Hb' & Hi').
    rewrite Hl', Hf', Hm', Hb', Hi', Hl, Hf, Hm, Hb, Hi.
    split; [|split; [lia|split; [|split; reflexivity]]].
    + rewrite seq_S, flat_map_app, <- app_assoc. cbn [flat_map].
      rewrite app_nil_r. reflexivity.
    + unfold querySelectorAll_all at 2. rewrite Hb.
      fold (querySelectorAll_all w).
      rewrite <- app_assoc. f_equal.
      change [mkClosure (querySelectorAll_all w)]
        with (repeat (mkClosure (querySelectorAll_all w)) 1).
      rewrite <- repeat_app. f_equal. lia.
Qed.

Lemma after_ticks_listeners_length (n : nat) (w : World) :
  List.length (document_listeners (after_ticks n w)) =
  (List.length (document_listeners w) + 3 * n)%nat.
Proof.
  destruct (after_ticks_fields n w) as (Hl & _).
  rewrite Hl, length_app. f_equal. clear Hl.
  generalize (next_function w). induction n as [|k IH]; intros f; cbn [seq flat_map].
  - reflexivity.
  - rewrite length_app, IH. cbn [registrations List.length]. lia.
Qed.

(** X6. The listeners on [document] only accumulate.  After [n] ticks
    of the leak timer the table is the one of before followed by three
    registrations per tick, for [click], [scroll] and [resize], of a
    function object that no other tick registers; nothing is removed,
    and the timers are left running. *)
Theorem listeners_accumulate (n : nat) (w : World) :
  document_listeners (after_ticks n w) =
    document_listeners w ++ flat_map registrations (seq (next_function w) n) /\
  List.length (document_listeners (after_ticks n w)) =
    (List.length (document_listeners w) + 3 * n)%nat /\
  NoDup (seq (next_function w) n) /\
  intervals (after_ticks n w) = intervals w.
Proof.
  destruct (after_ticks_fields n w) as (Hl & _ & _ & _ & Hi).
  split; [exact Hl|]. split; [|split; [apply seq_NoDup|exact Hi]].
  apply after_ticks_listeners_length.
Qed.

(** X7. [window.memoryLeaks] is append-only.  Whatever it held before,
    at any tick it holds what it held at any earlier tick, the same
    closures in the same places, followed by one new closure for each
    tick in between; nothing is ever taken out of it.  The ticks
    themselves do not change the children of the body.  (Nothing is said
    of what the new closures hold.) *)
Theorem memoryLeaks_append_only (m n : nat) (w : World) :
  (exists added : list Closure,
      memoryLeaks_list (after_ticks (m + n) w) =
        memoryLeaks_list (after_ticks m w) ++ added /\
      List.length added = n) /\
  document_body (after_ticks (m + n) w) = document_body w.
Proof.
  destruct (after_ticks_fields (m + n) w) as (_ & _ & Hmn & Hb & _).
  destruct (after_ticks_fields m w) as (_ & _ & Hm & _ & _).
  split; [|exact Hb].
  exists (repeat (mkClosure (querySelectorAll_all w)) n).
  split; [|apply repeat_length].
  rewrite Hmn, Hm, repeat_app, app_assoc. reflexivity.
Qed.

(** ** The two regular expressions *)

(** The patterns above are the literals of the script, character for
    character. *)
Lemma patterns_print :
  print_anchored badRegex_pattern = badRegex /\
  print_anchored emailRegex_pattern = emailRegex.
Proof. split; reflexivity. Qed.

(** *** The matcher decides [matches] *)

Lemma matches_never (u : list ascii) : ~ matches Never u.
Proof. intros H. inversion H. Qed.

Lemma matches_seq_inv (r s : regex) (l : list ascii) :
  matches (Seq r s) l ->
  exists u v, l = u ++ v /\ matches r u /\ matches s v.
Proof. intros H. inversion H; subst. eauto. Qed.

Lemma matches_alt_inv (r s : regex) (l : list ascii) :
  matches (Alt r s) l -> matches r l \/ matches s l.
Proof. intros H. inversion H; subst; auto. Qed.

Lemma matches_class_inv (items : list item) (l : list ascii) :
  matches (Class items) l -> exists c, l = [c] /\ in_class c items = true.
Proof. intros H. inversion H; subst. eauto. Qed.

Lemma matches_empty_inv (l : list ascii) : matches Empty l -> l = [].
Proof. intros H. inversion H. reflexivity. Qed.

Lemma nullable_matches (r : regex) : nullable r = true <-> matches r [].
Proof.
  induction r as [| |items|r IHr s IHs|r IHr s IHs|r IHr]; cbn [nullable].
  - split; [discriminate|]. intros H. inversion H.
  - split; [constructor|reflexivity].
  - split; [discriminate|]. intros H. inversion H.
  - rewrite andb_true_iff, IHr, IHs. split.
    + intros [Hr Hs]. apply (matches_seq r s [] [] Hr Hs).
    + intros H. apply matches_seq_inv in H. destruct H as (u & v & Huv & Hu & Hv).
      symmetry in Huv. apply app_eq_nil in Huv. destruct Huv as [-> ->]. auto.
  - rewrite orb_true_iff, IHr, IHs. split.
    + intros [H|H]; [apply matches_alt_l|apply matches_alt_r]; exact H.
    + apply matches_alt_inv.
  - split; [constructor|reflexivity].
Qed.

Lemma matches_seq_ (r s : regex) (l : list ascii) :
  matches (seq_ r s) l <-> matches (Seq r s) l.
Proof.
  destruct r; cbn [seq_]; try reflexivity.
  split; intros H; [inversion H|].
  apply matches_seq_inv in H. destruct H as (u & v & _ & Hu & _). inversion Hu.
Qed.

Lemma matches_alt_ (r s : regex) (l : list ascii) :
  matches (alt_ r s) l <-> matches (Alt r s) l.
Proof.
  split.
  - destruct r, s; cbn [alt_]; intros H;
      first [exact H | apply matches_alt_l; exact H | apply matches_alt_r; exact H].
  - intros H. apply matches_alt_inv in H.
    destruct H as [H|H]; destruct r, s; cbn [alt_];
      first [exact H | inversion H; fail | apply matches_alt_l; exact H
            | apply matches_alt_r; exact H].
Qed.

(** A string of [r*] that starts with [c] starts with a string of [r]
    that starts with [c]. *)
Lemma matches_star_cons (r : regex) (c : ascii) (l : list ascii) :
  matches (Star r) (c :: l) ->
  exists u v, l = u ++ v /\ matches r (c :: u) /\ matches (Star r) v.
Proof.
  intros H. remember (Star r) as rs eqn:Hrs. remember (c :: l) as cl eqn:Hcl.
  revert l Hcl.
  induction H as [| | | | | |r' u v Hu _ Hv IHv]; intros l Hcl; try discriminate.
  injection Hrs as ->.
  destruct u as [|c' u'].
  - apply IHv; [reflexivity|exact Hcl].
  - cbn [app] in Hcl. injection Hcl as -> <-.
    exists u', v. repeat split; assumption.
Qed.

Lemma deriv_matches (c : ascii) (r : regex) (l : list ascii) :
  matches (deriv c r) l <-> matches r (c :: l).
Proof.
  revert l. induction r as [| |items|r IHr s IHs|r IHr s IHs|r IHr]; intros l; cbn [deriv].
  - split; intros H; inversion H.
  - split; intros H; inversion H.
  - destruct (in_class c items) eqn:Hin; split; intros H.
    + apply matches_empty_inv in H. subst. constructor. exact Hin.
    + apply matches_class_inv in H. destruct H as (c' & [= <- ->] & _). constructor.
    + inversion H.
    + apply matches_class_inv in H. destruct H as (c' & [= <- ->] & Hin').
      congruence.
  - assert (Hleft : matches (seq_ (deriv c r) s) l <->
                    exists u v, l = u ++ v /\ matches r (c :: u) /\ matches s v).
    { rewrite matches_seq_. split.
      - intros H. apply matches_seq_inv in H. destruct H as (u & v & -> & Hu & Hv).
        exists u, v. rewrite <- IHr. auto.
      - intros (u & v & -> & Hu & Hv). constructor; [apply IHr; exact Hu|exact Hv]. }
    assert (Hsplit : matches (Seq r s) (c :: l) <->
                     (exists u v, l = u ++ v /\ matches r (c :: u) /\ matches s v) \/
                     (matches r [] /\ matches s (c :: l))).
    { split.
      - intros H. apply matches_seq_inv in H. destruct H as (u & v & Huv & Hu & Hv).
        destruct u as [|c' u'].
        + right. cbn [app] in Huv. subst v. auto.
        + left. cbn [app] in Huv. injection Huv as <- ->. eauto.
      - intros [(u & v & -> & Hu & Hv)|[Hu Hv]].
        + apply (matches_seq r s (c :: u) v Hu Hv).
        + apply (matches_seq r s [] (c :: l) Hu Hv). }
    rewrite Hsplit. destruct (nullable r) eqn:Hnull.
    + rewrite matches_alt_. split.
      * intros H. apply matches_alt_inv in H. destruct H as [H|H].
        -- left. apply Hleft. exact H.
        -- right. split; [apply nullable_matches; exact Hnull|apply IHs; exact H].
      * intros [H|[_ H]].
        -- apply matches_alt_l, Hleft. exact H.
        -- apply matches_alt_r, IHs. exact H.
    + rewrite Hleft. split; [auto|].
      intros [H|[H _]]; [exact H|].
      apply nullable_matches in H. congruence.
  - rewrite matches_alt_. split.
    + intros H. apply matches_alt_inv in H.
      destruct H as [H|H]; [apply matches_alt_l, IHr|apply matches_alt_r, IHs]; exact H.
    + intros H. apply matches_alt_inv in H.
      destruct H as [H|H]; [apply matches_alt_l, IHr|apply matches_alt_r, IHs]; exact H.
  - rewrite matches_seq_. split.
    + intros H. apply matches_seq_inv in H. destruct H as (u & v & -> & Hu & Hv).
      apply (matches_star_more r (c :: u) v); [apply IHr; exact Hu|exact Hv].
    + intros H. apply matches_star_cons in H. destruct H as (u & v & -> & Hu & Hv).
      constructor; [apply IHr; exact Hu|exact Hv].
Qed.

Lemma accepts_matches (r : regex) (l : list ascii) :
  accepts r l = true <-> matches r l.
Proof.
  revert r. induction l as [|c l IH]; intros r; cbn [accepts].
  - apply nullable_matches.
  - rewrite IH. apply deriv_matches.
Qed.


(** *** Classes, repetitions *)

Lemma matches_star_class (items : list item) (u : list ascii) :
  matches (Star (Class items)) u <-> forallb (fun c => in_class c items) u = true.
Proof.
  split.
  - intros H. remember (Star (Class items)) as rs eqn:Hrs.
    induction H as [| | | | | |r v w Hv _ Hw IHw]; try discriminate; [reflexivity|].
    injection Hrs as ->. apply matches_class_inv in Hv. destruct Hv as (c & -> & Hc).
    cbn [app forallb]. rewrite Hc, IHw; reflexivity.
  - induction u as [|c u IH]; cbn [forallb]; intros H; [constructor|].
    apply andb_prop in H. destruct H as [Hc Hu].
    apply (matches_star_more (Class items) [c] u); [constructor; exact Hc|exact (IH Hu)].
Qed.

Lemma matches_plus_class (items : list item) (u : list ascii) :
  matches (Seq (Class items) (Star (Class items))) u <->
  u <> [] /\ forallb (fun c => in_class c items) u = true.
Proof.
  split.
  - intros H. apply matches_seq_inv in H. destruct H as (v & w & -> & Hv & Hw).
    apply matches_class_inv in Hv. destruct Hv as (c & -> & Hc).
    apply matches_star_class in Hw. cbn [app forallb]. rewrite Hc, Hw.
    split; [discriminate|reflexivity].
  - intros [Hne H]. destruct u as [|c u]; [contradiction|].
    cbn [forallb] in H. apply andb_prop in H. destruct H as [Hc Hu].
    apply (matches_seq _ _ [c] u); [constructor; exact Hc|].
    apply matches_star_class. exact Hu.
Qed.

Lemma matches_upto_class (n : nat) (items : list item) (u : list ascii) :
  matches (Upto n (Class items)) u <->
  (List.length u <= n)%nat /\ forallb (fun c => in_class c items) u = true.
Proof.
  revert u. induction n as [|n IH]; intros u; cbn [Upto].
  - split.
    + intros H. apply matches_empty_inv in H. subst. split; [cbn; lia|reflexivity].
    + intros [Hlen _]. destruct u; [constructor|cbn in Hlen; lia].
  - split.
    + intros H. apply matches_alt_inv in H. destruct H as [H|H].
      * apply matches_seq_inv in H. destruct H as (v & w & -> & Hv & Hw).
        apply matches_class_inv in Hv. destruct Hv as (c & -> & Hc).
        apply IH in Hw. destruct Hw as [Hlen Hall].
        cbn [app forallb List.length]. rewrite Hc, Hall. split; [lia|reflexivity].
      * apply matches_empty_inv in H. subst. split; [cbn; lia|reflexivity].
    + intros [Hlen Hall]. destruct u as [|c u]; [apply matches_alt_r; constructor|].
      cbn [forallb List.length] in *. apply andb_prop in Hall. destruct Hall as [Hc Hu].
      apply matches_alt_l. apply (matches_seq _ _ [c] u); [constructor; exact Hc|].
      apply IH. split; [lia|exact Hu].
Qed.

(** *** [badRegex] *)

Lemma forallb_a_repeat (u : list ascii) :
  forallb (fun c => in_class c [Single "a"%char]) u = true ->
  u = repeat "a"%char (List.length u).
Proof.
  induction u as [|c u IH]; cbn [forallb List.length repeat]; intros H; [reflexivity|].
  apply andb_prop in H. destruct H as [Hc Hu].
  unfold in_class in Hc. cbn [existsb in_item] in Hc. rewrite orb_false_r in Hc.
  apply Ascii.eqb_eq in Hc. subst c. f_equal. exact (IH Hu).
Qed.

Lemma repeat_a_forallb (n : nat) :
  forallb (fun c => in_class c [Single "a"%char]) (repeat "a"%char n) = true.
Proof. induction n as [|n IH]; cbn [repeat forallb]; [reflexivity|]. rewrite IH. reflexivity. Qed.

Lemma matches_star_plus_a (u : list ascii) :
  matches (Star (Seq (Class [Single "a"%char]) (Star (Class [Single "a"%char])))) u ->
  forallb (fun c => in_class c [Single "a"%char]) u = true.
Proof.
  intros H.
  remember (Star (Seq (Class [Single "a"%char]) (Star (Class [Single "a"%char])))) as rs eqn:Hrs.
  induction H as [| | | | | |r v w Hv _ Hw IHw]; try discriminate; [reflexivity|].
  injection Hrs as ->. apply matches_plus_class in Hv. destruct Hv as [_ Hv].
  rewrite forallb_app, Hv, IHw; reflexivity.
Qed.

(** X12. [/^(a+)+$/] accepts a text exactly when the text is one [a] or
    more and nothing else: the outer [+] adds no string to those of
    [/^a+$/], only more ways of splitting them.  So it rejects
    [testString], twenty [a] and an [x], each of the hundred times the
    routine tries. *)
Theorem badRegex_accepts (text : string) :
  (test badRegex_pattern text = true <->
   exists n : nat, list_ascii_of_string text = repeat "a"%char (S n)) /\
  test badRegex_pattern text = test (PPlus (PChar "a")) text /\
  test badRegex_pattern testString = false.
Proof.
  assert (Hbad : forall l,
             accepts (desugar badRegex_pattern) l = true <->
             exists n : nat, l = repeat "a"%char (S n)).
  { intros l. rewrite accepts_matches. cbn [desugar badRegex_pattern]. split.
    - intros H. apply matches_seq_inv in H. destruct H as (u & v & -> & Hu & Hv).
      apply matches_plus_class in Hu. destruct Hu as [Hne Hu].
      apply matches_star_plus_a in Hv.
      assert (Hall : forallb (fun c => in_class c [Single "a"%char]) (u ++ v) = true)
        by (rewrite forallb_app, Hu, Hv; reflexivity).
      apply forallb_a_repeat in Hall. rewrite Hall.
      destruct u as [|c u]; [contradiction|]. cbn [app List.length]. eauto.
    - intros [n ->].
      rewrite <- (app_nil_r (repeat "a"%char (S n))).
      constructor; [|constructor].
      apply matches_plus_class. split; [discriminate|apply repeat_a_forallb]. }
  assert (Hplain : forall l,
             accepts (desugar (PPlus (PChar "a"))) l = true <->
             exists n : nat, l = repeat "a"%char (S n)).
  { intros l. rewrite accepts_matches. cbn [desugar]. rewrite matches_plus_class. split.
    - intros [Hne Hall]. apply forallb_a_repeat in Hall. rewrite Hall.
      destruct l as [|c l]; [contradiction|]. cbn [List.length]. eauto.
    - intros [n ->]. split; [discriminate|apply repeat_a_forallb]. }
  split; [apply Hbad|]. split.
  - unfold test. apply eq_true_iff_eq. rewrite Hbad, Hplain. reflexivity.
  - unfold test. destruct (accepts _ _) eqn:Htest; [|reflexivity].
    apply Hbad in Htest. destruct Htest as [n Hn].
    assert (Hlen := f_equal (@List.length ascii) Hn).
    rewrite repeat_length in Hlen. cbn in Hlen. injection Hlen as <-.
    vm_compute in Hn. discriminate.
Qed.

(** *** [emailRegex] *)

Lemma alphanumeric_hyphen_incl (c : ascii) :
  in_class c alphanumeric = true -> in_class c alphanumeric_hyphen = true.
Proof.
  unfold in_class, alphanumeric_hyphen. rewrite existsb_app. intros ->. reflexivity.
Qed.

Lemma last_app_single {A : Type} (l : list A) (x d : A) : last (l ++ [x]) d = x.
Proof. apply last_last. Qed.

Lemma matches_label (u : list ascii) :
  matches (desugar label_pattern) u <-> is_label u = true.
Proof.
  cbn [desugar label_pattern Times Nat.sub]. split.
  - intros H. apply matches_seq_inv in H. destruct H as (v & w & -> & Hv & Hw).
    apply matches_class_inv in Hv. destruct Hv as (c & -> & Hc).
    apply matches_alt_inv in Hw. destruct Hw as [Hw|Hw].
    + apply matches_seq_inv in Hw. destruct Hw as (m & e & -> & Hm & He).
      apply matches_seq_inv in Hm. destruct Hm as (m0 & mid & -> & Hm0 & Hmid).
      apply matches_empty_inv in Hm0. subst m0. cbn [app] in *.
      apply matches_class_inv in He. destruct He as (d & -> & Hd).
      apply matches_upto_class in Hmid. destruct Hmid as [Hlen Hmid].
      unfold is_label. rewrite Hc, last_app_single, Hd, forallb_app, Hmid.
      cbn [forallb]. rewrite (alphanumeric_hyphen_incl d Hd).
      cbn [andb List.length]. rewrite length_app. cbn [List.length].
      apply Nat.leb_le. lia.
    + apply matches_empty_inv in Hw. subst w. cbn [app is_label last forallb].
      rewrite Hc. reflexivity.
  - intros H. destruct u as [|c rest]; [discriminate|].
    unfold is_label in H.
    apply andb_prop in H. destruct H as [H Hlen].
    apply andb_prop in H. destruct H as [H Hall].
    apply andb_prop in H. destruct H as [Hc Hlast].
    apply Nat.leb_le in Hlen.
    apply (matches_seq _ _ [c] rest); [constructor; exact Hc|].
    destruct rest as [|c' rest'].
    + apply matches_alt_r. constructor.
    + destruct (exists_last (l := c' :: rest')) as (mid & d & Heq); [discriminate|].
      rewrite Heq in *. rewrite last_app_single in Hlast.
      rewrite forallb_app in Hall. apply andb_prop in Hall. destruct Hall as [Hmid _].
      cbn [List.length] in Hlen. rewrite length_app in Hlen. cbn [List.length] in Hlen.
      apply matches_alt_l. constructor; [|constructor; exact Hlast].
      apply (matches_seq _ _ [] mid); [constructor|].
      apply matches_upto_class. split; [lia|exact Hmid].
Qed.

Lemma matches_dot_labels (v : list ascii) :
  matches (Star (Seq (Class [Single "."%char]) (desugar label_pattern))) v <->
  exists others : list (list ascii),
    v = flat_map (cons "."%char) others /\
    Forall (fun u => is_label u = true) others.
Proof.
  split.
  - intros H.
    remember (Star (Seq (Class [Single "."%char]) (desugar label_pattern))) as rs eqn:Hrs.
    induction H as [| | | | | |r u w Hu _ Hw IHw]; try discriminate.
    + exists []. split; [reflexivity|constructor].
    + injection Hrs as ->. destruct (IHw eq_refl) as (others & -> & Hothers).
      apply matches_seq_inv in Hu. destruct Hu as (d & lab & -> & Hd & Hlab).
      apply matches_class_inv in Hd. destruct Hd as (c & -> & Hc).
      unfold in_class in Hc. cbn [existsb in_item] in Hc. rewrite orb_false_r in Hc.
      apply Ascii.eqb_eq in Hc. subst c.
      apply matches_label in Hlab.
      exists (lab :: others). split; [|constructor; assumption].
      cbn [flat_map app]. rewrite <- ?app_assoc. reflexivity.
  - intros (others & -> & Hothers).
    induction Hothers as [|lab others Hlab _ IH]; cbn [flat_map]; [constructor|].
    change ("."%char :: lab) with (["."%char] ++ lab).
    constructor; [|exact IH].
    constructor; [constructor; reflexivity|apply matches_label; exact Hlab].
Qed.

Lemma is_local_spec (u : list ascii) :
  is_local u = true <-> u <> [] /\ forallb (fun c => in_class c local_items) u = true.
Proof.
  destruct u as [|c u]; cbn [is_local].
  - split; [discriminate|]. intros [H _]. contradiction.
  - split; [intros H; split; [discriminate|exact H]|intros [_ H]; exact H].
Qed.

Lemma matches_email (l : list ascii) :
  matches (desugar emailRegex_pattern) l <-> email_shape l.
Proof.
  unfold email_shape.
  change (desugar emailRegex_pattern)
    with (Seq (Seq (Class local_items) (Star (Class local_items)))
              (Seq (Class [Single "@"%char])
                   (Seq (desugar label_pattern)
                        (Star (Seq (Class [Single "."%char]) (desugar label_pattern)))))).
  split.
  - intros H. apply matches_seq_inv in H. destruct H as (local & rest & -> & Hlocal & Hrest).
    apply matches_plus_class, is_local_spec in Hlocal.
    apply matches_seq_inv in Hrest. destruct Hrest as (a & dom & -> & Ha & Hdom).
    apply matches_class_inv in Ha. destruct Ha as (c & -> & Hc).
    unfold in_class in Hc. cbn [existsb in_item] in Hc. rewrite orb_false_r in Hc.
    apply Ascii.eqb_eq in Hc. subst c.
    apply matches_seq_inv in Hdom. destruct Hdom as (first & v & -> & Hfirst & Hv).
    apply matches_label in Hfirst.
    apply matches_dot_labels in Hv. destruct Hv as (others & -> & Hothers).
    exists local, first, others. repeat split; assumption.
  - intros (local & first & others & -> & Hlocal & Hfirst & Hothers).
    constructor; [apply matches_plus_class, is_local_spec; exact Hlocal|].
    change ("@"%char :: first ++ flat_map (cons "."%char) others)
      with (["@"%char] ++ first ++ flat_map (cons "."%char) others).
    constructor; [constructor; reflexivity|].
    constructor; [apply matches_label; exact Hfirst|].
    apply matches_dot_labels. exists others. split; [reflexivity|exact Hothers].
Qed.

Lemma test_email_example : test emailRegex_pattern "test@example.com" = true.
Proof.
  unfold test. rewrite accepts_matches, matches_email.
  exists (list_ascii_of_string "test"), (list_ascii_of_string "example"),
    [list_ascii_of_string "com"].
  split; [reflexivity|]. split; [reflexivity|]. split; [reflexivity|].
  repeat constructor.
Qed.

(** X13. [emailRegex] accepts exactly the texts of the form
    [local@label.label...label]: a local part of one character or more
    from the first class, one [@], and one or more labels separated by
    dots, each of 1 to 63 letters, digits and hyphens with no hyphen at
    either end.  ["test@example.com"] is one of them, so each of the
    thousand tests of the routine gives [true]. *)
Theorem emailRegex_accepts (text : string) :
  (test emailRegex_pattern text = true <-> email_shape (list_ascii_of_string text)) /\
  test emailRegex_pattern "test@example.com" = true.
Proof.
  split; [|exact test_email_example].
  unfold test. rewrite accepts_matches. apply matches_email.
Qed.

Lemma count_occ_outside (items : list item) (x : ascii) (u : list ascii) :
  in_class x items = false ->
  forallb (fun c => in_class c items) u = true ->
  count_occ ascii_dec u x = 0%nat.
Proof.
  intros Hx. induction u as [|c u IH]; cbn [forallb count_occ]; intros H; [reflexivity|].
  apply andb_prop in H. destruct H as [Hc Hu].
  destruct (ascii_dec c x) as [->|_]; [congruence|exact (IH Hu)].
Qed.

Lemma last_indep {A : Type} (l : list A) (d d' : A) :
  l <> [] -> last l d = last l d'.
Proof.
  induction l as [|x l IH]; intros Hne; [contradiction|].
  destruct l as [|y l]; [reflexivity|].
  change (last (y :: l) d = last (y :: l) d'). apply IH. discriminate.
Qed.

Lemma is_label_chars (u : list ascii) :
  is_label u = true ->
  forallb (fun c => in_class c alphanumeric_hyphen) u = true /\
  (1 <= List.length u <= 63)%nat /\
  forall d, in_class (last u d) alphanumeric = true.
Proof.
  destruct u as [|c rest]; [discriminate|]. unfold is_label. intros H.
  apply andb_prop in H. destruct H as [H Hlen].
  apply andb_prop in H. destruct H as [H Hall].
  apply andb_prop in H. destruct H as [Hc Hlast].
  apply Nat.leb_le in Hlen.
  split; [cbn [forallb]; rewrite (alphanumeric_hyphen_incl c Hc), Hall; reflexivity|].
  split; [cbn [List.length] in *; lia|].
  intros d. destruct rest as [|c' rest']; [exact Hc|].
  change (last (c :: c' :: rest') d) with (last (c' :: rest') d).
  rewrite (last_indep (c' :: rest') d c) by discriminate. exact Hlast.
Qed.

Lemma last_app_nonempty {A : Type} (l1 l2 : list A) (d : A) :
  l2 <> [] -> last (l1 ++ l2) d = last l2 d.
Proof.
  intros Hne. induction l1 as [|x l1 IH]; [reflexivity|].
  cbn [app]. destruct (l1 ++ l2) eqn:Heq.
  - apply app_eq_nil in Heq. destruct Heq as [_ ->]. contradiction.
  - rewrite <- Heq in *. cbn [last]. rewrite Heq. rewrite <- Heq. exact IH.
Qed.

Lemma dot_labels_facts (others : list (list ascii)) :
  Forall (fun u => is_label u = true) others ->
  count_occ ascii_dec (flat_map (cons "."%char) others) "@"%char = 0%nat /\
  (others <> [] ->
   flat_map (cons "."%char) others <> [] /\
   forall d, in_class (last (flat_map (cons "."%char) others) d) alphanumeric = true).
Proof.
  induction 1 as [|lab others Hlab _ IH]; cbn [flat_map].
  - split; [reflexivity|]. intros H. contradiction.
  - destruct (is_label_chars lab Hlab) as (Hall & Hlen & Hlast).
    destruct IH as [Hcount Hend]. split.
    + cbn [app count_occ]. destruct (ascii_dec "."%char "@"%char); [discriminate|].
      rewrite count_occ_app, Hcount.
      rewrite (count_occ_outside alphanumeric_hyphen); [reflexivity|reflexivity|exact Hall].
    + intros _. split; [discriminate|]. intros d.
      destruct others as [|lab' others'].
      * cbn [flat_map]. rewrite app_nil_r.
        change ("."%char :: lab) with (["."%char] ++ lab).
        rewrite last_app_nonempty; [apply Hlast|].
        destruct lab; [cbn in Hlen; lia|discriminate].
      * destruct Hend as [Hne Hl]; [discriminate|].
        change (("."%char :: lab) ++ flat_map (cons "."%char) (lab' :: others'))
          with (("."%char :: lab) ++ flat_map (cons "."%char) (lab' :: others')).
        rewrite last_app_nonempty; [apply Hl|exact Hne].
Qed.

(** X14. What [emailRegex] never accepts: a text with no [@] or with
    two, a text of fewer than three characters, a text that does not
    end with a letter or a digit. *)
Theorem emailRegex_rejects (text : string) :
  test emailRegex_pattern text = true ->
  count_occ ascii_dec (list_ascii_of_string text) "@"%char = 1%nat /\
  (3 <= List.length (list_ascii_of_string text))%nat /\
  in_class (last (list_ascii_of_string text) "@"%char) alphanumeric = true.
Proof.
  unfold test. rewrite accepts_matches, matches_email.
  intros (local & first & others & -> & Hlocal & Hfirst & Hothers).
  apply is_local_spec in Hlocal. destruct Hlocal as [Hne Hlocal].
  destruct (is_label_chars first Hfirst) as (Hall & Hlen & Hlast).
  destruct (dot_labels_facts others Hothers) as [Hcount Hend].
  split; [|split].
  - rewrite count_occ_app. cbn [count_occ].
    destruct (ascii_dec "@"%char "@"%char) as [_|Hneq]; [|contradiction].
    rewrite count_occ_app, Hcount.
    rewrite (count_occ_outside local_items); [|reflexivity|exact Hlocal].
    rewrite (count_occ_outside alphanumeric_hyphen); [reflexivity|reflexivity|exact Hall].
  - rewrite length_app. cbn [List.length]. rewrite length_app.
    destruct local; [contradiction|]. cbn [List.length]. lia.
  - rewrite last_app_nonempty by discriminate.
    change ("@"%char :: first ++ flat_map (cons "."%char) others)
      with (["@"%char] ++ first ++ flat_map (cons "."%char) others).
    assert (Hfne : first <> []) by (destruct first; [cbn in Hlen; lia|discriminate]).
    rewrite last_app_nonempty
      by (intros H; apply app_eq_nil in H; destruct H; contradiction).
    destruct others as [|lab others'].
    + cbn [flat_map]. rewrite app_nil_r. apply Hlast.
    + destruct Hend as [Hone Hl]; [discriminate|].
      rewrite last_app_nonempty; [apply Hl|exact Hone].
Qed.

Lemma emailRegex_rejects_witness :
  count_occ ascii_dec (list_ascii_of_string "test@example.com") "@"%char = 1%nat /\
  (3 <= List.length (list_ascii_of_string "test@example.com"))%nat /\
  in_class (last (list_ascii_of_string "test@example.com") "@"%char) alphanumeric = true.
Proof.
  apply (emailRegex_rejects "test@example.com"). exact test_email_example.
Defined.
(** ** Synchronous requests, continued *)

(** X15. [synchronousRequests] never raises.  A request that fails does
    raise, inside its [try]; the handler swallows the exception, the
    routine goes on to the next request and returns, whatever the
    network answers to either of them, and the page is as it was. *)
Theorem synchronousRequests_never_raises (w : World) :
  synchronousRequests w = Returned tt w /\
  (forall e, ~ raised (synchronousRequests w) e) /\
  (forall url, network w url = None ->
               XMLHttpRequest_get url w = Raised "NetworkError" w).
Proof.
  split; [apply synchronousRequests_returns|]. split.
  - intros e (s & H). rewrite synchronousRequests_returns in H. discriminate.
  - intros url Hfail. unfold XMLHttpRequest_get. rewrite Hfail. reflexivity.
Qed.

(** ** Data processing, continued *)

(** On every double, doubling and comparing with 0.5 is comparing with
    0.25. *)
Lemma SFltb_half_double_quarter (x : spec_float) :
  valid_binary x = true ->
  SFltb SF_half (SF64mul x SF_two) = SFltb SF_quarter x.
Proof.
  intros Hv. destruct x as [s|s| |s mx ex].
  - destruct s; reflexivity.
  - destruct s; reflexivity.
  - reflexivity.
  - cbn [valid_binary] in Hv. rewrite (SF64mul_two_finite _ _ _ Hv).
    apply bounded_inv in Hv. destruct Hv as [Hc He].
    destruct s.
    + destruct (_ =? 53); [destruct (_ <=? 971)|]; reflexivity.
    + unfold SFltb, SFcompare, SF_half, SF_quarter.
      destruct (Z.eqb_spec (Z.pos (digits2_pos mx)) 53) as [Hd|Hd].
      * destruct (Z.leb_spec (ex + 1) 971) as [Hle|Hgt].
        -- destruct (Z.compare_spec (-53) (ex + 1));
             destruct (Z.compare_spec (-54) ex); try lia; reflexivity.
        -- destruct (Z.compare_spec (-54) ex); try lia; reflexivity.
      * assert (ex = -1074) as -> by lia. reflexivity.
Qed.

(** X16. Passes four and five of the chain compute [value * 2] and keep
    the record when the product is above 0.5: on every double, [NaN],
    the infinities and the subnormal numbers included, that is the test
    [value > 0.25]. *)
Theorem doubled_test_is_quarter_test (v : float) :
  gt (v * lit_2) lit_0_5 = gt v lit_0_25.
Proof.
  unfold gt. rewrite !ltb_spec, mul_spec.
  destruct Prim2SF_literals as (-> & -> & -> & _).
  apply SFltb_half_double_quarter, Prim2SF_valid.
Qed.

Lemma toUpperCase_app (s t : string) :
  toUpperCase (s ++ t) = (toUpperCase s ++ toUpperCase t)%string.
Proof.
  induction s as [|c s IH]; cbn [String.append toUpperCase]; [reflexivity|].
  rewrite IH. reflexivity.
Qed.

Lemma toUpperCase_digits (d : Decimal.uint) :
  toUpperCase (NilEmpty.string_of_uint d) = NilEmpty.string_of_uint d.
Proof.
  induction d; cbn [NilEmpty.string_of_uint toUpperCase]; try rewrite IHd; reflexivity.
Qed.

Lemma toUpperCase_name (i : Z) :
  toUpperCase ("Item " ++ decimal i) = ("ITEM " ++ decimal i)%string.
Proof.
  rewrite toUpperCase_app. unfold decimal. rewrite toUpperCase_digits. reflexivity.
Qed.

(** The test of the whole chain on the record built for index [i]. *)
Lemma kept_synthesize (rand : nat -> float) (i : Z) :
  kept (synthesize rand i) =
  Z.even i && gt (rand (Z.to_nat (101 * i))) lit_0_25.
Proof.
  unfold kept, synthesize. cbn [value id].
  rewrite (float_mul_comm lit_2).
  destruct (gt (rand (Z.to_nat (101 * i)) * lit_2) lit_0_5) eqn:Hd.
  - destruct (doubled_above_half _ Hd) as [-> ->].
    cbn [andb]. reflexivity.
  - assert (Hq : gt (rand (Z.to_nat (101 * i))) lit_0_25 = false).
    { destruct (gt (rand (Z.to_nat (101 * i))) lit_0_25) eqn:Hq; [|reflexivity].
      unfold gt in Hd, Hq. rewrite ltb_spec, mul_spec in Hd. rewrite ltb_spec in Hq.
      destruct Prim2SF_literals as (H2 & H5 & H25 & _). rewrite H2, H5 in Hd.
      rewrite H25 in Hq.
      rewrite SFltb_half_double_quarter in Hd by apply Prim2SF_valid. congruence. }
    rewrite Hq, !andb_false_r. reflexivity.
Qed.

Lemma process_synthesized (rand : nat -> float) (indices : list Z) :
  process (map (synthesize rand) indices) =
  map (fun i => ("ITEM " ++ decimal i)%string)
      (filter (fun i => Z.even i && gt (rand (Z.to_nat (101 * i))) lit_0_25) indices).
Proof.
  induction indices as [|i rest IH]; [reflexivity|].
  cbn [map filter]. rewrite process_cons, kept_synthesize, IH.
  destruct (Z.even i && gt (rand (Z.to_nat (101 * i))) lit_0_25); [|reflexivity].
  cbn [map]. f_equal. unfold synthesize. cbn [name]. apply toUpperCase_name.
Qed.

Lemma filter_length_le {A : Type} (f g : A -> bool) (l : list A) :
  (forall x, g x = true -> f x = true) ->
  (List.length (filter g l) <= List.length (filter f l))%nat.
Proof.
  intros Himp. induction l as [|x l IH]; cbn [filter]; [lia|].
  destruct (g x) eqn:Hg.
  - rewrite (Himp x Hg). cbn [List.length]. lia.
  - destruct (f x); cbn [List.length]; lia.
Qed.

(** X17. What [inefficientDataProcessing] ends up with, for every run
    of [Math.random()]: [result] holds ["ITEM i"] for the even [i] below
    10000 whose record drew a [value] above 0.25, in increasing order of
    [i]; so the length it reports is never more than 5000. *)
Theorem result_of_processing (rand : nat -> float) :
  process (largeArray rand) =
    map (fun i => ("ITEM " ++ decimal i)%string)
        (filter (fun i => Z.even i && gt (rand (Z.to_nat (101 * i))) lit_0_25)
                (Zseq 0 (Z.to_nat 10000))) /\
  (fst (inefficientDataProcessing rand) <= 5000)%nat.
Proof.
  assert (Hresult := process_synthesized rand (Zseq 0 (Z.to_nat 10000))).
  fold (largeArray rand) in Hresult.
  split; [exact Hresult|].
  unfold inefficientDataProcessing. cbn [fst]. rewrite Hresult, length_map.
  etransitivity; [apply (filter_length_le Z.even)|].
  - intros i Hi. apply andb_prop in Hi. apply Hi.
  - apply Nat.eq_le_incl. vm_compute. reflexivity.
Qed.

(** X18. The chain decides on each record by itself: run on two arrays
    put end to end, it gives the two results put end to end. *)
Theorem process_app (l1 l2 : list Item) :
  process (l1 ++ l2) = process l1 ++ process l2.
Proof.
  induction l1 as [|item rest IH]; [reflexivity|].
  cbn [app]. rewrite !process_cons, IH.
  destruct (kept item); reflexivity.
Qed.

(** ** Heavy calculations, continued *)

Lemma isPrime_loop_cost_spec (fuel : nat) (n i tests : Z) :
  2 <= i <= n ->
  (Z.to_nat (n - i) < fuel)%nat ->
  (forall d, 2 <= d < i -> ~ (d | n)) ->
  exists b k,
    isPrime_loop_cost fuel n i tests = Some (b, k) /\
    isPrime_loop fuel n i = Some b /\
    (b = true -> k = tests + (n - i)) /\
    (b = false ->
     exists d, i <= d < n /\ k = tests + (d - i) + 1 /\ (d | n) /\
               forall d', 2 <= d' < d -> ~ (d' | n)).
Proof.
  revert i tests. induction fuel as [|fuel IH]; intros i tests Hi Hfuel Hinv; [lia|].
  cbn [isPrime_loop_cost isPrime_loop].
  destruct (Z.ltb_spec i n) as [Hlt|Hge].
  - destruct (Z.eqb_spec (Z.rem n i) 0) as [Hrem|Hrem].
    + exists false, (tests + 1). split; [reflexivity|]. split; [reflexivity|].
      split; [discriminate|]. intros _. exists i.
      split; [lia|]. split; [lia|]. split; [|exact Hinv].
      apply Z.rem_divide; [lia|exact Hrem].
    + destruct (IH (i + 1) (tests + 1)) as (b & k & Hcost & Hloop & Htrue & Hfalse).
      * lia.
      * lia.
      * intros d Hd Hdiv. destruct (Z.eq_dec d i) as [->|Hne].
        -- apply Hrem. apply Z.rem_divide; [lia|exact Hdiv].
        -- apply (Hinv d); [lia|exact Hdiv].
      * exists b, k. split; [exact Hcost|]. split; [exact Hloop|]. split.
        -- intros Hb. rewrite (Htrue Hb). lia.
        -- intros Hb. destruct (Hfalse Hb) as (d & Hd & Hk & Hdiv & Hleast).
           exists d. split; [lia|]. split; [lia|]. split; assumption.
  - exists true, tests. split; [reflexivity|]. split; [reflexivity|].
    split; [intros _; lia|discriminate].
Qed.

(** X19. What a call of [isPrime] costs.  Below 2 it computes no
    remainder.  On a prime [p] it computes [p - 2] of them, one for each
    [i] from 2 to [p - 1]: there is no square-root bound.  On a
    composite number it stops at the least divisor [d], after [d - 1]
    remainders.  The answer is the one of [isPrime]. *)
Theorem isPrime_cost_spec (n : Z) :
  exists (b : bool) (tests : Z),
    isPrime_cost n = Some (b, tests) /\
    isPrime n = Some b /\
    (n < 2 -> tests = 0) /\
    (2 <= n -> b = true -> tests = n - 2) /\
    (2 <= n -> b = false ->
     2 <= tests + 1 < n /\ (tests + 1 | n) /\
     forall d, 2 <= d < tests + 1 -> ~ (d | n)).
Proof.
  unfold isPrime_cost, isPrime, isPrime_fuel.
  destruct (Z.ltb_spec n 2) as [Hlt|Hge].
  - exists false, 0. split; [reflexivity|]. split; [reflexivity|].
    split; [reflexivity|]. split; intros; lia.
  - destruct (isPrime_loop_cost_spec (Z.to_nat n) n 2 0)
      as (b & k & Hcost & Hloop & Htrue & Hfalse); [lia|lia|intros d Hd; lia|].
    exists b, k. split; [exact Hcost|]. split; [exact Hloop|].
    split; [lia|]. split.
    + intros _ Hb. rewrite (Htrue Hb). lia.
    + intros _ Hb. destruct (Hfalse Hb) as (d & Hd & Hk & Hdiv & Hleast).
      replace (k + 1) with d by lia. split; [lia|]. split; assumption.
Qed.

Lemma F_nonneg (k : nat) : 0 <= F k.
Proof.
  induction k as [k IH] using (well_founded_induction lt_wf).
  destruct k as [|[|k]]; [cbn; lia|cbn; lia|].
  rewrite F_step. pose proof (IH (S k)). pose proof (IH k). lia.
Qed.

Lemma F_upper (k : nat) : F k <= 2 ^ Z.of_nat k.
Proof.
  induction k as [k IH] using (well_founded_induction lt_wf).
  destruct k as [|[|k]]; [cbn; lia|cbn; lia|].
  rewrite F_step.
  pose proof (IH (S k) ltac:(lia)) as H1. pose proof (IH k ltac:(lia)) as H2.
  replace (Z.of_nat (S (S k))) with (Z.of_nat k + 2) by lia.
  replace (Z.of_nat (S k)) with (Z.of_nat k + 1) in H1 by lia.
  rewrite Z.pow_add_r in * by lia.
  change (2 ^ 1) with 2 in H1. change (2 ^ 2) with 4.
  pose proof (Z.pow_pos_nonneg 2 (Z.of_nat k) ltac:(lia) ltac:(lia)). lia.
Qed.






(** X21. The numbers [fibonacci] returns stay small: [F n] is between 0
    and [2 ^ n].  So on the range of the script, and up to [n = 52], the
    results, and with them all the sums that lead to them, are below
    [2 ^ 53], where the additions of JavaScript numbers are exact. *)
Theorem fibonacci_exact (n : Z) :
  0 <= n <= 52 ->
  exists v : Z, fibonacci n = Some v /\ 0 <= v <= 2 ^ n /\ v < 2 ^ 53.
Proof.
  intros Hn. exists (F (Z.to_nat n)). split; [apply fibonacci_F; lia|].
  pose proof (F_nonneg (Z.to_nat n)) as H0.
  pose proof (F_upper (Z.to_nat n)) as Hup.
  rewrite Z2Nat.id in Hup by lia.
  assert (2 ^ n <= 2 ^ 52) by (apply Z.pow_le_mono_r; lia).
  assert (2 ^ 52 < 2 ^ 53) by reflexivity. lia.
Qed.

Lemma fibonacci_exact_witness :
  exists v : Z, fibonacci 34 = Some v /\ 0 <= v <= 2 ^ 34 /\ v < 2 ^ 53.
Proof. apply (fibonacci_exact 34). lia. Defined.




(** ** Start-up, continued *)

Lemma start_all_script_with_body (w w1 : World) :
  inefficientDOMManipulation w = Returned tt w1 ->
  start_all script_body (w, []) =
  Returned tt
    (with_draws
       (with_intervals
          (with_intervals w1 (intervals w1 ++ [(animation_tick, 16)]))
          ((intervals w1 ++ [(animation_tick, 16)]) ++ [(leak_tick_callback, 1000)]))
       (draws w1 + 101 * Z.to_nat 10000),
     fixed_order).
Proof.
  intros Hchurn. unfold start_all, bind.
  rewrite (call_returned script_body DOMManipulation (w, []) w1 Hchurn).
  erewrite (call_returned script_body Animation) by reflexivity.
  erewrite (call_returned script_body MemoryLeaks) by reflexivity.
  erewrite (call_returned script_body Regex) by apply inefficientRegex_returns.
  erewrite (call_returned script_body Requests) by apply synchronousRequests_returns.
  erewrite (call_returned script_body DataProcessing) by apply script_body_DataProcessing.
  erewrite (call_returned script_body Calculations) by apply script_body_Calculations.
  reflexivity.
Qed.

(** X23. The whole start-up on a loaded page with a well-formed body.
    The seven routines are called and return.  Afterwards the body has
    the children it had; two timers have been added, the animation
    every 16 ms and then the leak every 1000 ms, after those that were
    there; no listener is registered yet and [window.memoryLeaks] is
    untouched, both waiting for the first tick; 100 layouts have been
    forced and 1,010,200 random numbers drawn. *)
Theorem script_effects (w : World) :
  body_well_formed w ->
  exists w' : World,
    dispatch script_body "complete" w = Started (Returned tt (w', fixed_order)) /\
    document_body w' = document_body w /\
    intervals w' = intervals w ++ [(animation_tick, 16); (leak_tick_callback, 1000)] /\
    document_listeners w' = document_listeners w /\
    window_memoryLeaks w' = window_memoryLeaks w /\
    reflows w' = (reflows w + 100)%nat /\
    draws w' = (draws w + 200 + Z.to_nat 1010000)%nat.
Proof.
  unfold body_well_formed. intros Hwf.
  destruct (document_body w) as [children|] eqn:Hbody; [|contradiction].
  pose proof (churn_loop_spec 100 0 w children Hbody Hwf) as Hchurn.
  fold inefficientDOMManipulation in Hchurn.
  eexists. split.
  - unfold dispatch. cbn [String.eqb Ascii.eqb Bool.eqb].
    rewrite (start_all_script_with_body w _ Hchurn). reflexivity.
  - world_simpl. rewrite <- app_assoc.
    do 4 (split; [reflexivity|]). split; lia.
Qed.

Lemma script_effects_witness :
  exists w' : World,
    dispatch script_body "complete" two_children = Started (Returned tt (w', fixed_order)) /\
    document_body w' = document_body two_children /\
    intervals w' =
      intervals two_children ++ [(animation_tick, 16); (leak_tick_callback, 1000)] /\
    document_listeners w' = document_listeners two_children /\
    window_memoryLeaks w' = window_memoryLeaks two_children /\
    reflows w' = (reflows two_children + 100)%nat /\
    draws w' = (draws two_children + 200 + Z.to_nat 1010000)%nat.
Proof.
  apply (script_effects two_children).
  unfold body_well_formed, two_children. cbn [document_body next_node].
  repeat constructor.
Defined.

(** X24. The start-up of the script has one way to fail.  On a loaded
    page without a body the first routine raises a [TypeError] and is
    the only routine called.  On a loaded page with a body, well formed
    or not, all seven routines are called and return. *)
Theorem script_fails_iff_no_body (readyState : string) (w : World) :
  readyState <> "loading"%string ->
  exists out : completion (World * list Routine) unit,
    dispatch script_body readyState w = Started out /\
    (document_body w = None ->
     raised out "TypeError" /\ invoked out = [DOMManipulation]) /\
    (document_body w <> None ->
     returned out /\ invoked out = fixed_order).
Proof.
  intros Hloaded. unfold dispatch.
  destruct (String.eqb_spec readyState "loading") as [Heq|_]; [contradiction|].
  eexists. split; [reflexivity|].
  destruct (document_body w) as [children|] eqn:Hbody.
  - split; [discriminate|]. intros _.
    destruct (churn_loop_with_body 100 0 w children Hbody) as (w1 & children1 & Hchurn & _).
    fold inefficientDOMManipulation in Hchurn.
    rewrite (start_all_script_with_body w w1 Hchurn).
    split; [eexists; eexists; reflexivity|reflexivity].
  - split; [|intros H; contradiction]. intros _.
    destruct (proj1 (churn_raises_iff_no_body_aux w) Hbody) as (s & Hraise).
    unfold start_all, bind.
    rewrite (call_raised script_body DOMManipulation (w, []) "TypeError" s Hraise).
    split; [eexists; reflexivity|reflexivity].
Qed.

Lemma script_fails_iff_no_body_witness :
  exists out : completion (World * list Routine) unit,
    dispatch script_body "interactive" no_body = Started out /\
    (document_body no_body = None ->
     raised out "TypeError" /\ invoked out = [DOMManipulation]) /\
    (document_body no_body <> None ->
     returned out /\ invoked out = fixed_order).
Proof.
  apply (script_fails_iff_no_body "interactive" no_body). discriminate.
Defined.

(** X25. Start-up and leak together.  On a loaded page with a
    well-formed body where [window.memoryLeaks] is not defined, the
    start-up leaves the leak timer registered; [N] ticks of it later
    [window.memoryLeaks] holds [N] closures and [document] has [3 N]
    listeners more than before the script ran. *)
Theorem leaks_after_startup (w : World) (N : nat) :
  body_well_formed w ->
  window_memoryLeaks w = None ->
  exists w' : World,
    dispatch script_body "complete" w = Started (Returned tt (w', fixed_order)) /\
    In (leak_tick_callback, 1000) (intervals w') /\
    memoryLeaks_length (after_ticks N w') = N /\
    List.length (document_listeners (after_ticks N w')) =
      (List.length (document_listeners w) + 3 * N)%nat.
Proof.
  unfold body_well_formed. intros Hwf Hundef.
  destruct (document_body w) as [children|] eqn:Hbody; [|contradiction].
  pose proof (churn_loop_spec 100 0 w children Hbody Hwf) as Hchurn.
  fold inefficientDOMManipulation in Hchurn.
  eexists. split.
  - unfold dispatch. cbn [String.eqb Ascii.eqb Bool.eqb].
    rewrite (start_all_script_with_body w _ Hchurn). reflexivity.
  - split; [world_simpl; apply in_or_app; right; left; reflexivity|].
    split.
    + rewrite after_ticks_length. unfold memoryLeaks_length. world_simpl.
      rewrite Hundef. reflexivity.
    + rewrite after_ticks_listeners_length. world_simpl. reflexivity.
Qed.

Lemma leaks_after_startup_witness :
  exists w' : World,
    dispatch script_body "complete" two_children = Started (Returned tt (w', fixed_order)) /\
    In (leak_tick_callback, 1000) (intervals w') /\
    memoryLeaks_length (after_ticks 3 w') = 3%nat /\
    List.length (document_listeners (after_ticks 3 w')) =
      (List.length (document_listeners two_children) + 3 * 3)%nat.
Proof.
  apply (leaks_after_startup two_children 3).
  - unfold body_well_formed, two_children. cbn [document_body next_node].
    repeat constructor.
  - reflexivity.
Defined.

